(** * ChatIndexer: retrieval over conversation history

    A shallow embedding of [src/js/chat-indexer.js] (class [ChatIndexer])
    together with the properties its specification states about it.

    Modelling conventions.
    - A JavaScript string is a list of code units; code units are the
      Latin-1 range, one [ascii] each.
    - String and array offsets are [Z] (the source computes with negative
      values such as [-1] and [end - CHUNK_OVERLAP]); counters are [nat].
    - A JavaScript [Map] is an association list in insertion order.
    - Scores are IEEE doubles in the source.  They are idealised as real
      numbers; the properties below only depend on the sign of a score,
      which the idealisation preserves ([Math.log(1)] is exactly [0], the
      logarithm of a quotient above [1] is positive, and products and sums
      of positive terms stay positive).
    - A possibly [undefined] array element is an [option]; an operation that
      would raise a [TypeError] returns [Throw]. *)

From Stdlib Require Import List Ascii String ZArith Arith Bool Lia.
From Stdlib Require Import Reals Lra.
Import ListNotations.

Set Implicit Arguments.

(* ================================================================= *)
(** ** JavaScript strings *)

Module JsString.

Definition jsstring := list ascii.

Definition str (s : string) : jsstring := list_ascii_of_string s.

Definition strlen (s : jsstring) : Z := Z.of_nat (List.length s).

Definition code (c : ascii) : N := N_of_ascii c.

Definition nl : ascii := ascii_of_N 10.
Definition sp : ascii := ascii_of_N 32.

(** White space as [\s] and [String.prototype.trim] see it, restricted to
    one-byte code units: TAB, LF, VT, FF, CR, SPACE and NBSP. *)
Definition is_space (c : ascii) : bool :=
  let n := code c in
  ((9 <=? n) && (n <=? 13) || (n =? 32) || (n =? 160))%N.

Definition is_digit (c : ascii) : bool :=
  let n := code c in ((48 <=? n) && (n <=? 57))%N.

Definition is_lower (c : ascii) : bool :=
  let n := code c in ((97 <=? n) && (n <=? 122))%N.

(** [String.prototype.toLowerCase] on one code unit. *)
Definition lower_char (c : ascii) : ascii :=
  let n := code c in
  if ((65 <=? n) && (n <=? 90))%N then ascii_of_N (n + 32)
  else if ((192 <=? n) && (n <=? 222) && negb (n =? 215))%N
       then ascii_of_N (n + 32)
  else c.

Definition toLowerCase (s : jsstring) : jsstring := map lower_char s.

Fixpoint str_eqb (a b : jsstring) : bool :=
  match a, b with
  | [], [] => true
  | x :: a', y :: b' => Ascii.eqb x y && str_eqb a' b'
  | _, _ => false
  end.

(** [s.substring(a, b)]: both arguments are clamped to [0 .. length] and
    swapped when out of order. *)
Definition clamp (len a : Z) : Z := Z.max 0 (Z.min a len).

Definition substring (s : jsstring) (a b : Z) : jsstring :=
  let len := strlen s in
  let a' := clamp len a in
  let b' := clamp len b in
  let lo := Z.min a' b' in
  let hi := Z.max a' b' in
  firstn (Z.to_nat (hi - lo)) (skipn (Z.to_nat lo) s).

Fixpoint trimStart (s : jsstring) : jsstring :=
  match s with
  | [] => []
  | c :: s' => if is_space c then trimStart s' else s
  end.

Definition trimEnd (s : jsstring) : jsstring := rev (trimStart (rev s)).

Definition trim (s : jsstring) : jsstring := trimEnd (trimStart s).

Fixpoint starts_with (p s : jsstring) : bool :=
  match p, s with
  | [], _ => true
  | x :: p', y :: s' => Ascii.eqb x y && starts_with p' s'
  | _ :: _, [] => false
  end.

(** One left-to-right pass that remembers the last position not after
    [from] at which [p] occurs. *)
Fixpoint lastIndexOf_scan (p s : jsstring) (i from best : Z) : Z :=
  match s with
  | [] => if starts_with p [] && (i <=? from)%Z then i else best
  | _ :: s' =>
      lastIndexOf_scan p s' (i + 1) from
        (if starts_with p s && (i <=? from)%Z then i else best)
  end.

(** [s.lastIndexOf(p, from)]: the greatest index at most [from] where [p]
    occurs, [-1] when there is none.  A negative [from] counts as [0]. *)
Definition lastIndexOf (s p : jsstring) (from : Z) : Z :=
  lastIndexOf_scan p s 0 (Z.max 0 from) (-1).

(** [s.split(/\s+/)]: the pieces between maximal runs of white space,
    empty pieces at either end included. *)
Fixpoint split_ws_loop (skipping : bool) (cur : jsstring) (s : jsstring)
  : list jsstring :=
  match s with
  | [] => [rev cur]
  | c :: s' =>
      if is_space c
      then (if skipping then split_ws_loop true [] s'
            else rev cur :: split_ws_loop true [] s')
      else split_ws_loop false (c :: cur) s'
  end.

Definition split_ws (s : jsstring) : list jsstring :=
  split_ws_loop false [] s.

(** [parts.join(sep)] *)
Fixpoint join (sep : jsstring) (parts : list jsstring) : jsstring :=
  match parts with
  | [] => []
  | [p] => p
  | p :: rest => p ++ sep ++ join sep rest
  end.

End JsString.

(* ================================================================= *)
(** ** JavaScript arrays: [slice] *)

Module JsArray.

(** Relative index of [Array.prototype.slice]: a negative argument counts
    from the end. *)
Definition rel (len k : Z) : Z :=
  if (k <? 0)%Z then Z.max (len + k) 0 else Z.min k len.

Definition slice {A} (l : list A) (a b : Z) : list A :=
  let len := Z.of_nat (List.length l) in
  let lo := rel len a in
  let hi := rel len b in
  firstn (Z.to_nat (hi - lo)) (skipn (Z.to_nat lo) l).

(** [l.slice(a)] *)
Definition slice_from {A} (l : list A) (a : Z) : list A :=
  skipn (Z.to_nat (rel (Z.of_nat (List.length l)) a)) l.

End JsArray.

(* ================================================================= *)
(** ** JavaScript [Map]: association lists in insertion order *)

Module JsMap.

Section Ops.
Variables K V : Type.
Variable eqb : K -> K -> bool.

Definition t := list (K * V).

Fixpoint get (m : t) (k : K) : option V :=
  match m with
  | [] => None
  | (k', v) :: m' => if eqb k k' then Some v else get m' k
  end.

Definition has (m : t) (k : K) : bool :=
  match get m k with Some _ => true | None => false end.

(** [m.set(k, v)]: an existing key keeps its place, a new key goes to
    the end. *)
Fixpoint set (m : t) (k : K) (v : V) : t :=
  match m with
  | [] => [(k, v)]
  | (k', v') :: m' =>
      if eqb k k' then (k, v) :: m' else (k', v') :: set m' k v
  end.

Definition keys (m : t) : list K := map fst m.
Definition size (m : t) : nat := List.length m.
End Ops.

End JsMap.

(* ================================================================= *)
(** ** The indexer *)

Module ChatIndexer.
Import JsString.

Local Open Scope Z_scope.

(** *** Data *)

Definition KeywordMap := JsMap.t jsstring nat.

Record Chunk := mkChunk {
  id : nat;
  text : jsstring;
  start : Z;
  end_ : Z;
  keywords : KeywordMap
}.

Record Message := mkMessage {
  role : jsstring;
  content : jsstring
}.

Record State := mkState {
  chunks : list Chunk;
  keywordIndex : JsMap.t jsstring (list nat);
  documentFrequency : JsMap.t jsstring nat;
  isIndexed : bool
}.

(** The state the constructor builds. *)
Definition init : State := mkState [] [] [] false.

(** *** Configuration *)

Definition CHUNK_SIZE : Z := 800.
Definition CHUNK_OVERLAP : Z := 150.
Definition TOP_K : Z := 4.
Definition MAX_CONTEXT_CHARS : Z := 3000.
Definition maxIterations : nat := Z.to_nat 5000.

Definition STOP_WORDS : list jsstring :=
  map str
    [ "the"; "a"; "an"; "and"; "or"; "but"; "in"; "on"; "at"; "to"; "for";
      "of"; "with"; "by"; "is"; "are"; "was"; "were"; "be"; "been"; "being";
      "have"; "has"; "had"; "do"; "does"; "did"; "will"; "would"; "could";
      "should"; "may"; "might"; "must"; "this"; "that"; "these"; "those";
      "it"; "its"; "you"; "your"; "we"; "our"; "they"; "their"; "he"; "she";
      "his"; "her"; "i"; "my"; "me"; "can"; "just"; "so"; "as"; "if"; "then";
      "than"; "when"; "what"; "which"; "who"; "how"; "all"; "each"; "every";
      "both"; "few"; "more"; "most"; "other"; "some"; "such"; "no"; "not";
      "only"; "same"; "into"; "from"; "up"; "down"; "out"; "about"; "after";
      "before"; "between"; "through"; "during"; "above"; "below" ]%string.

(** *** extractKeywords *)

(** [.replace(/[^a-z0-9\s]/g, ' ')] on one code unit. *)
Definition replace_noise (c : ascii) : ascii :=
  if is_lower c || is_digit c || is_space c then c else sp.

(** [/^\d+$/.test(word)] *)
Definition all_digits (w : jsstring) : bool :=
  match w with
  | [] => false
  | _ => forallb is_digit w
  end.

Definition is_stop_word (w : jsstring) : bool :=
  existsb (str_eqb w) STOP_WORDS.

Definition keep_word (w : jsstring) : bool :=
  (2 <? strlen w) && negb (is_stop_word w) && negb (all_digits w).

Definition kw_get (m : KeywordMap) (w : jsstring) : option nat :=
  JsMap.get str_eqb m w.
Definition kw_has (m : KeywordMap) (w : jsstring) : bool :=
  JsMap.has str_eqb m w.

(** [wordFreq.set(word, (wordFreq.get(word) || 0) + 1)] *)
Definition tally (wordFreq : KeywordMap) (word : jsstring) : KeywordMap :=
  JsMap.set str_eqb wordFreq word
    (match kw_get wordFreq word with Some n => n | None => O end + 1)%nat.

Definition extractKeywords (t : jsstring) : KeywordMap :=
  let words :=
    filter keep_word (split_ws (map replace_noise (toLowerCase t))) in
  fold_left tally words [].

(** *** createChunks *)

Definition breakPoints : list jsstring :=
  [ nl :: nl :: str "[USER]:";
    nl :: nl :: str "[ASSISTANT]:";
    str ". ";
    [nl] ].

(** One round of the [for (const bp of breakPoints)] loop. *)
Definition tryBreak (content : jsstring) (e searchStart : Z)
           (bestBreak : Z) (bp : jsstring) : Z :=
  let pos := lastIndexOf content bp e in
  if (searchStart <? pos) && (bestBreak <? pos)
  then pos + (if str_eqb bp (str ". ") then 2 else strlen bp)
  else bestBreak.

(** The value of [end] when the slice is taken. *)
Definition chunkEnd (content : jsstring) (st : Z) : Z :=
  let e := Z.min (st + CHUNK_SIZE) (strlen content) in
  if e <? strlen content then
    let searchStart := Z.max (st + CHUNK_SIZE - 100) st in
    let bestBreak :=
      fold_left (tryBreak content e searchStart) breakPoints (-1) in
    if st <? bestBreak then bestBreak else e
  else e.

(** [chunks.push({...})] guarded by [chunkText.length > 30]. *)
Definition pushChunk (acc : list Chunk) (chunkText : jsstring) (st e : Z)
  : list Chunk :=
  if 30 <? strlen chunkText
  then acc ++ [mkChunk (List.length acc) chunkText st e
                       (extractKeywords chunkText)]
  else acc.

(** The [while] loop; [fuel] is what is left of [maxIterations]. *)
Fixpoint createChunks_loop (fuel : nat) (content : jsstring) (st : Z)
         (acc : list Chunk) : list Chunk :=
  match fuel with
  | O => acc
  | S fuel' =>
      if st <? strlen content then
        let e := chunkEnd content st in
        let chunkText := trim (substring content st e) in
        let acc' := pushChunk acc chunkText st e in
        let newStart := e - CHUNK_OVERLAP in
        let st' := Z.max (st + 1) newStart in
        if strlen content - 30 <=? st' then acc'
        else createChunks_loop fuel' content st' acc'
      else acc
  end.

Definition createChunks (content : jsstring) : list Chunk :=
  createChunks_loop maxIterations content 0 [].

(** *** buildKeywordIndex *)

Definition Index := (JsMap.t jsstring (list nat) * JsMap.t jsstring nat)%type.

Definition postings (ki : JsMap.t jsstring (list nat)) (w : jsstring)
  : list nat :=
  match JsMap.get str_eqb ki w with Some l => l | None => [] end.

Definition docFreq (df : JsMap.t jsstring nat) (w : jsstring) : nat :=
  match JsMap.get str_eqb df w with Some n => n | None => O end.

(** The body of the inner loop, for one keyword of one chunk. *)
Definition indexKeyword (cid : nat) (ix : Index) (entry : jsstring * nat)
  : Index :=
  let keyword := fst entry in
  let ki := fst ix in
  let df := snd ix in
  let ki1 := if JsMap.has str_eqb ki keyword then ki
             else JsMap.set str_eqb ki keyword [] in
  let ki2 := JsMap.set str_eqb ki1 keyword (postings ki1 keyword ++ [cid]) in
  (ki2, JsMap.set str_eqb df keyword (docFreq df keyword + 1)%nat).

Definition indexChunk (ix : Index) (c : Chunk) : Index :=
  fold_left (indexKeyword (id c)) (keywords c) ix.

Definition buildKeywordIndex (cs : list Chunk) (ix : Index) : Index :=
  fold_left indexChunk cs ix.

(** *** indexConversation *)

Definition roleLabel (m : Message) : jsstring :=
  if str_eqb (role m) (str "user") then str "USER" else str "ASSISTANT".

Definition labelled (m : Message) : jsstring :=
  str "[" ++ roleLabel m ++ str "]: " ++ content m.

Definition conversationText (messages : list Message) : jsstring :=
  join [nl; nl] (map labelled messages).

(** [messages] is [None] when the argument is absent ([null] or
    [undefined]).  The result is the returned count and the state left
    behind. *)
Definition indexConversation (messages : option (list Message)) (s : State)
  : nat * State :=
  match messages with
  | None => (O, s)
  | Some [] => (O, s)
  | Some msgs =>
      let cs := createChunks (conversationText msgs) in
      let ix := buildKeywordIndex cs ([], []) in
      (List.length cs, mkState cs (fst ix) (snd ix) true)
  end.

(** *** search *)

(** A stable sort, as [Array.prototype.sort] is: [le x y] says that the
    comparator does not put [y] before [x]. *)
Section StableSort.
Variable A : Type.
Variable le : A -> A -> bool.

Fixpoint insert (x : A) (l : list A) : list A :=
  match l with
  | [] => [x]
  | y :: l' => if le x y then x :: l else y :: insert x l'
  end.

Definition sort (l : list A) : list A := fold_right insert [] l.
End StableSort.

(** [documentFrequency.get(queryWord) || 1] *)
Definition dfOr1 (s : State) (w : jsstring) : nat :=
  match JsMap.get str_eqb (documentFrequency s) w with
  | Some (S n) => S n
  | _ => 1%nat
  end.

(** [Math.log(N / df)] *)
Definition idf (N df : nat) : R := ln (INR N / INR df).

(** The body of the loop over the query's keywords. *)
Definition addTerm (s : State) (N : nat) (c : Chunk) (score : R)
           (entry : jsstring * nat) : R :=
  let queryWord := fst entry in
  let queryFreq := snd entry in
  match kw_get (keywords c) queryWord with
  | Some tf => (score + INR tf * idf N (dfOr1 s queryWord) * INR queryFreq)%R
  | None => score
  end.

Definition recencyBoost (N : nat) (c : Chunk) : R :=
  (1 + (INR (id c) / INR N) * (3 / 10))%R.

(** The score of one chunk as it stands at [if (score > 0)]. *)
Definition chunkScore (s : State) (queryKeywords : KeywordMap) (c : Chunk)
  : R :=
  let N := List.length (chunks s) in
  (fold_left (addTerm s N c) queryKeywords 0 * recencyBoost N c)%R.

Definition Scores := JsMap.t nat R.

Definition recordScore (s : State) (queryKeywords : KeywordMap)
           (scores : Scores) (c : Chunk) : Scores :=
  let score := chunkScore s queryKeywords c in
  if Rlt_dec 0 score then JsMap.set Nat.eqb scores (id c) score else scores.

Definition computeScores (s : State) (queryKeywords : KeywordMap) : Scores :=
  fold_left (recordScore s queryKeywords) (chunks s) [].

(** [(a, b) => b[1] - a[1]] is not positive. *)
Definition byScoreDesc (a b : nat * R) : bool :=
  if Rle_dec (snd b) (snd a) then true else false.

(** [(a, b) => a.start - b.start] is not positive. *)
Definition byStart (a b : Chunk) : bool := start a <=? start b.

Definition defined {A} (l : list (option A)) : list A :=
  flat_map (fun x => match x with Some a => [a] | None => [] end) l.

Definition undefineds {A} (l : list (option A)) : list (option A) :=
  filter (fun x => match x with Some _ => false | None => true end) l.

(** [sort] with a comparator moves every [undefined] to the end without
    showing it to the comparator. *)
Definition sortByStart (l : list (option Chunk)) : list (option Chunk) :=
  map Some (sort byStart (defined l)) ++ undefineds l.

Definition search (s : State) (query : jsstring) (topK : Z)
  : list (option Chunk) :=
  if negb (isIndexed s) || (List.length (chunks s) =? 0)%nat then []
  else
    let queryKeywords := extractKeywords query in
    if (JsMap.size queryKeywords =? 0)%nat
    then map Some (JsArray.slice_from (chunks s) (- topK))
    else
      let scores := computeScores s queryKeywords in
      let sortedChunks :=
        map (fun e => nth_error (chunks s) (fst e))
            (JsArray.slice (sort byScoreDesc scores) 0 topK) in
      sortByStart sortedChunks.

(** *** getContextForQuery *)

Inductive result (A : Type) : Type :=
| Ok (a : A)
| Throw.
Arguments Throw {A}.

Definition separator (context : jsstring) : jsstring :=
  match context with [] => [] | _ => [nl; nl] end.

Definition truncated (context : jsstring) (c : Chunk) (remaining : Z)
  : jsstring :=
  context ++ (nl :: str "..." ++ [nl])
          ++ substring (text c) 0 remaining ++ str "...".

(** The [for (const chunk of relevantChunks)] loop. *)
Fixpoint assemble (context : jsstring) (cs : list (option Chunk))
  : result jsstring :=
  match cs with
  | [] => Ok context
  | None :: _ => Throw
  | Some c :: rest =>
      if MAX_CONTEXT_CHARS <? strlen context + strlen (text c) then
        let remaining := MAX_CONTEXT_CHARS - strlen context - 10 in
        if 50 <? remaining then Ok (truncated context c remaining)
        else Ok context
      else assemble (context ++ separator context ++ text c) rest
  end.

Definition getContextForQuery (s : State) (query : jsstring)
  : result jsstring :=
  let relevantChunks := search s query TOP_K in
  match relevantChunks with
  | [] => Ok []
  | _ => assemble [] relevantChunks
  end.

(** *** clear *)

Definition clear (s : State) : State := mkState [] [] [] false.

(** *** Engine states *)

(** The states an engine goes through: the constructor's, and whatever
    the two mutating operations make of one. *)
Inductive reachable : State -> Prop :=
| reach_init : reachable init
| reach_index : forall s messages,
    reachable s -> reachable (snd (indexConversation messages s))
| reach_clear : forall s, reachable s -> reachable (clear s).

End ChatIndexer.

(* ================================================================= *)
(** ** Vocabulary of the properties *)

Module Invariants.
Import JsString ChatIndexer.

Local Open Scope Z_scope.

Definition positive_counts (m : KeywordMap) : Prop :=
  Forall (fun e => (1 <= snd e)%nat) m.

Definition keyword_map_ok (m : KeywordMap) : Prop :=
  NoDup (JsMap.keys m) /\ positive_counts m.

Definition MAX_TEXT : Z := CHUNK_SIZE + 15.

(** What every stored chunk satisfies. *)
Definition chunk_ok (c : Chunk) : Prop :=
  keywords c = extractKeywords (text c)
  /\ 30 < strlen (text c) <= MAX_TEXT
  /\ 0 <= start c < end_ c.

(** Ids are positions. *)
Definition ids_ok (cs : list Chunk) : Prop :=
  map id cs = seq 0 (List.length cs).

(** The ids of the chunks whose keyword map has [w], in chunk order. *)
Definition holders (cs : list Chunk) (w : jsstring) : list nat :=
  map id (filter (fun c => kw_has (keywords c) w) cs).

Definition once (b : bool) (cid : nat) : list nat :=
  if b then [cid] else [].

(** Ascending ids. *)
Fixpoint ascending (l : list nat) : Prop :=
  match l with
  | [] => True
  | x :: l' => Forall (fun y => (x < y)%nat) l' /\ ascending l'
  end.

Record wf (s : State) : Prop := mkWf {
  wf_chunks : Forall chunk_ok (chunks s);
  wf_ids : ids_ok (chunks s);
  wf_postings : forall w, postings (keywordIndex s) w = holders (chunks s) w;
  wf_docFreq : forall w,
      docFreq (documentFrequency s) w = List.length (holders (chunks s) w);
  wf_keys : JsMap.keys (keywordIndex s) = JsMap.keys (documentFrequency s);
  wf_unindexed : isIndexed s = false -> chunks s = []
}.

(** The window the loop opens at [st] is not stored. *)
Definition dropped (content : jsstring) (st : Z) : Prop :=
  strlen (trim (substring content st (chunkEnd content st))) <= 30.

(** Two chunks stored one after the other: the second starts later, and
    it starts inside the first unless a window between them was dropped. *)
Definition linked (content : jsstring) (c c' : Chunk) : Prop :=
  start c < start c'
  /\ (start c' <= end_ c
      \/ exists st, start c < st < start c' /\ dropped content st).

(** The running context after each of [cs] was appended whole, [None] when
    one of them did not fit. *)
Fixpoint appendWhole (context : jsstring) (cs : list Chunk)
  : option jsstring :=
  match cs with
  | [] => Some context
  | c :: cs' =>
      if MAX_CONTEXT_CHARS <? strlen context + strlen (text c) then None
      else appendWhole (context ++ separator context ++ text c) cs'
  end.

Definition follows (content : jsstring) (c : Chunk) (st : Z) : Prop :=
  start c < st
  /\ (st <= end_ c \/ exists st0, start c < st0 < st /\ dropped content st0).

Definition chain_inv (content : jsstring) (st : Z) (acc : list Chunk)
  : Prop :=
  (forall i c c', nth_error acc i = Some c ->
                  nth_error acc (S i) = Some c' -> linked content c c')
  /\ (forall c, nth_error acc (List.length acc - 1) = Some c ->
                follows content c st).

End Invariants.

(* ================================================================= *)
(** ** Sample conversations *)

Module Samples.
Import JsString ChatIndexer.

Definition user (body : jsstring) : Message := mkMessage (str "user") body.

Definition spaces (n : nat) : jsstring := repeat sp n.

Definition letters (c : string) (n : nat) : jsstring :=
  List.concat (repeat (str c) n).

(** One short question: the transcript has 31 code units and one chunk. *)
Definition short_talk : list Message := [user (str "rust ownership explain!")].

Definition short_state : State :=
  snd (indexConversation (Some short_talk) init).

(** A slightly longer question: 33 code units, three chunks. *)
Definition three_talk : list Message :=
  [user (str "tell me about rust please")].

Definition three_state : State :=
  snd (indexConversation (Some three_talk) init).

(** Two short words far apart: no window holds more than 30 code units
    once trimmed. *)
Definition sparse_talk : list Message :=
  [user (spaces 1000 ++ letters "a" 20 ++ spaces 1000 ++ letters "b" 20)].

(** Two paragraphs with a long blank stretch between them. *)
Definition gap_talk : list Message :=
  [user (letters "a" 40 ++ spaces 1452 ++ letters "b" 40 ++ spaces 600)].

Definition gap_state : State :=
  snd (indexConversation (Some gap_talk) init).

(** A long unbroken answer followed by blank padding: four chunks, the
    last of them too long for what is left of the context budget. *)
Definition long_talk : list Message :=
  [user (letters "x" 2622 ++ spaces 300)].

Definition long_state : State :=
  snd (indexConversation (Some long_talk) init).

(** The first three chunks of [long_state], its fourth, and the context
    the first three make. *)
Definition long_pre : list Chunk := firstn 3 (chunks long_state).

Definition long_last : Chunk :=
  nth 3 (chunks long_state) (mkChunk 0 [] 0 0 []).

Definition long_context : jsstring := join [nl; nl] (map text long_pre).

Definition no_chunk : Chunk := mkChunk 0 [] 0 0 [].

Definition short_chunk : Chunk := nth 0 (chunks short_state) no_chunk.

Definition rust_query : jsstring := str "rust".

Definition three_first : Chunk := nth 0 (chunks three_state) no_chunk.
Definition three_second : Chunk := nth 1 (chunks three_state) no_chunk.

Definition gap_first : Chunk := nth 0 (chunks gap_state) no_chunk.
Definition gap_second : Chunk := nth 1 (chunks gap_state) no_chunk.

(** The word the second paragraph of [gap_talk] is made of. *)
Definition gap_query : jsstring := letters "b" 40.


(** A query made of stop words only. *)
Definition stop_query : jsstring := str "the".

End Samples.

(* ================================================================= *)
(** ** The chat application's use of the indexer *)

(** From [src/js/chat-app.js]: the title of a new chat, the retrieval
    step of [sendMessage] and the message list [callGroqAPI] sends. *)

Module ChatApp.
Import JsString ChatIndexer.

Local Open Scope Z_scope.

(** [ChatStorage.generateTitle] *)
Definition generateTitle (message : jsstring) : jsstring :=
  let title := trim (substring message 0 50) in
  if strlen title <? strlen message then title ++ str "..." else title.

Definition count {A} (l : list A) : Z := Z.of_nat (List.length l).

(** The retrieval step of [sendMessage]; [messages] already ends with the
    message just sent, [text] is its text.  The result is [ragContext] and
    the engine state left behind. *)
Definition ragContextFor (messages : list Message) (text : jsstring)
           (s : State) : result jsstring * State :=
  let s1 :=
    if 2 <? count messages
    then snd (indexConversation (Some (JsArray.slice messages 0 (-1))) s)
    else s in
  let ragContext :=
    if 4 <? count messages then getContextForQuery s1 text else Ok [] in
  (ragContext, s1).

Definition quote : ascii := ascii_of_N 34.

Definition historyHeader : jsstring :=
  [nl; nl] ++ str "RELEVANT CONVERSATION HISTORY:"
           ++ [nl; quote; quote; quote; nl].

Definition historyFooter : jsstring := [nl; quote; quote; quote].

(** [systemPrompt] of [callGroqAPI]; [base] is the fixed instruction text
    it starts from. *)
Definition systemPromptWith (base ragContext : jsstring) : jsstring :=
  match ragContext with
  | [] => base
  | _ => base ++ historyHeader ++ ragContext ++ historyFooter
  end.

(** [this.messages.slice(-6, -1).map(m => ({role, content}))] *)
Definition recentMessages (messages : list Message) : list Message :=
  map (fun m => mkMessage (role m) (content m))
      (JsArray.slice messages (-6) (-1)).

(** [fullMessages] of [callGroqAPI]. *)
Definition fullMessages (base : jsstring) (messages : list Message)
           (question ragContext : jsstring) : list Message :=
  mkMessage (str "system") (systemPromptWith base ragContext)
  :: recentMessages messages ++ [mkMessage (str "user") question].

Definition backtick : ascii := ascii_of_N 96.

(** [processed.match(/```/g)]: the number of matches, found left to right
    without overlap; [run] counts the backticks just read that no match
    has used yet. *)
Fixpoint fences (run : nat) (s : jsstring) : nat :=
  match s with
  | [] => O
  | c :: s' =>
      if Ascii.eqb c backtick
      then match run with
           | S (S _) => S (fences O s')
           | _ => fences (S run) s'
           end
      else fences O s'
  end.

(** The step of [renderMarkdown] that closes a code block left open while
    the answer is still streaming. *)
Definition closeCodeFence (processed : jsstring) : jsstring :=
  if Nat.eqb (Nat.modulo (fences O processed) 2) 0 then processed
  else processed ++ nl :: [backtick; backtick; backtick].

End ChatApp.

(* ================================================================= *)
(** ** Further vocabulary *)

Module Vocabulary.
Import JsString ChatIndexer.

Local Open Scope Z_scope.

(** The words [extractKeywords] tallies. *)
Definition keptWords (t : jsstring) : list jsstring :=
  filter keep_word (split_ws (map replace_noise (toLowerCase t))).

(** [m.get(w) || 0] *)
Definition frequency (m : KeywordMap) (w : jsstring) : nat :=
  match kw_get m w with Some n => n | None => O end.

Definition occurrences (w : jsstring) (words : list jsstring) : nat :=
  List.length (filter (str_eqb w) words).

Definition is_alnum (c : ascii) : bool := is_lower c || is_digit c.

(** A code unit that may be part of a keyword. *)
Definition clean (c : ascii) : Prop :=
  is_space c = false /\ is_alnum c = true.

(** Offsets that do not go down. *)
Fixpoint ordered (l : list Z) : Prop :=
  match l with
  | [] => True
  | x :: l' => Forall (fun y => x <= y) l' /\ ordered l'
  end.

(** Offsets that go up. *)
Fixpoint increasing (l : list Z) : Prop :=
  match l with
  | [] => True
  | x :: l' => Forall (fun y => x < y) l' /\ increasing l'
  end.

(** Some stored chunk holds [w]. *)
Definition held (cs : list Chunk) (w : jsstring) : bool :=
  existsb (fun c => kw_has (keywords c) w) cs.

(** What [createChunks] guarantees of a chunk cut from [content]. *)
Definition cut_from (content : jsstring) (c : Chunk) : Prop :=
  0 <= start c < end_ c
  /\ end_ c <= strlen content
  /\ end_ c - start c <= CHUNK_SIZE + 15
  /\ text c = trim (substring content (start c) (end_ c))
  /\ 30 < strlen (text c) <= end_ c - start c
  /\ keywords c = extractKeywords (text c).

End Vocabulary.

(* ================================================================= *)
(** ** Further sample inputs *)

Module MoreSamples.
Import JsString ChatIndexer Samples.

Definition assistant (body : jsstring) : Message :=
  mkMessage (str "assistant") body.

(** Five messages, the last one being the question just sent. *)
Definition five_talk : list Message :=
  [ user (str "what is ownership in rust and why does it matter");
    assistant (str "ownership decides who frees a value");
    user (str "and borrowing");
    assistant (str "borrowing lends a value without giving it away");
    user (str "ownership again please") ].

Definition five_question : jsstring := str "ownership again please".

Definition hello : jsstring := str "hello there".

Definition user_query : jsstring := str "user".

Definition mixed_text : jsstring :=
  str "The Rust borrow-checker: RUST 2024, rust!".

End MoreSamples.

(* ================================================================= *)
(** ** Facts about the string and array primitives *)

Module JsFacts.
Import JsString.

Local Open Scope Z_scope.

Lemma strlen_nonneg (s : jsstring) : 0 <= strlen s.
Proof. unfold strlen. lia. Qed.

Lemma strlen_app (a b : jsstring) : strlen (a ++ b) = strlen a + strlen b.
Proof. unfold strlen. rewrite length_app. lia. Qed.

Lemma strlen_cons (c : ascii) (s : jsstring) : strlen (c :: s) = 1 + strlen s.
Proof. unfold strlen. simpl List.length. lia. Qed.

Lemma strlen_nil : strlen [] = 0.
Proof. reflexivity. Qed.

Lemma str_eqb_eq (a b : jsstring) : str_eqb a b = true <-> a = b.
Proof.
  revert b. induction a as [|x a IH]; intros [|y b]; simpl; split;
    try congruence; try reflexivity.
  - intros H. apply andb_true_iff in H. destruct H as [H1 H2].
    apply Ascii.eqb_eq in H1. apply IH in H2. congruence.
  - intros H. injection H as -> ->. apply andb_true_iff. split.
    + apply Ascii.eqb_refl.
    + apply IH. reflexivity.
Qed.

Lemma str_eqb_refl (a : jsstring) : str_eqb a a = true.
Proof. apply str_eqb_eq. reflexivity. Qed.

Lemma str_eqb_neq (a b : jsstring) : str_eqb a b = false <-> a <> b.
Proof.
  split.
  - intros H E. apply str_eqb_eq in E. congruence.
  - intros H. destruct (str_eqb a b) eqn:E; [|reflexivity].
    apply str_eqb_eq in E. contradiction.
Qed.

(** *** substring *)

Lemma substring_length_le (s : jsstring) (a b : Z) :
  0 <= a -> a <= b -> strlen (substring s a b) <= b - a.
Proof.
  intros Ha Hab. unfold substring, strlen, clamp.
  rewrite length_firstn. lia.
Qed.

Lemma substring_prefix (s : jsstring) (r : Z) :
  0 <= r -> substring s 0 r = firstn (Z.to_nat r) s.
Proof.
  intros Hr. unfold substring, clamp, strlen.
  assert (H0 : Z.min 0 (Z.of_nat (List.length s)) = 0) by lia.
  rewrite H0. replace (Z.max 0 0) with 0 by reflexivity.
  set (r' := Z.max 0 (Z.min r (Z.of_nat (List.length s)))).
  replace (Z.min 0 r') with 0 by lia.
  replace (Z.max 0 r') with r' by lia.
  simpl skipn. rewrite Z.sub_0_r. subst r'.
  destruct (Z.le_gt_cases r (Z.of_nat (List.length s))) as [H|H].
  - f_equal. lia.
  - replace (Z.to_nat (Z.max 0 (Z.min r (Z.of_nat (List.length s)))))
      with (List.length s) by lia.
    rewrite firstn_all. symmetry. apply firstn_all2. lia.
Qed.

Lemma substring_prefix_length (s : jsstring) (r : Z) :
  0 <= r <= strlen s -> strlen (substring s 0 r) = r.
Proof.
  intros [H0 H1]. rewrite substring_prefix by assumption.
  unfold strlen in *. rewrite length_firstn. lia.
Qed.


(** *** trim *)

Lemma trimStart_length (s : jsstring) :
  (List.length (trimStart s) <= List.length s)%nat.
Proof.
  induction s as [|c s IH]; simpl; [lia|].
  destruct (is_space c); simpl; lia.
Qed.

Lemma trim_length (s : jsstring) : strlen (trim s) <= strlen s.
Proof.
  unfold trim, trimEnd, strlen. rewrite length_rev.
  pose proof (trimStart_length (rev (trimStart s))) as H1.
  pose proof (trimStart_length s) as H2.
  rewrite length_rev in H1. lia.
Qed.

(** *** lastIndexOf *)

Lemma lastIndexOf_scan_le (p s : jsstring) (i from best : Z) :
  best <= from -> lastIndexOf_scan p s i from best <= from.
Proof.
  revert i best. induction s as [|c s IH]; intros i best Hb; simpl.
  - destruct (starts_with p [] && (i <=? from)) eqn:E; [|assumption].
    apply andb_true_iff in E. lia.
  - apply IH.
    destruct (starts_with p (c :: s) && (i <=? from)) eqn:E; [|assumption].
    apply andb_true_iff in E. lia.
Qed.

Lemma lastIndexOf_le (s p : jsstring) (from : Z) :
  0 <= from -> lastIndexOf s p from <= from.
Proof.
  intros H. unfold lastIndexOf.
  replace (Z.max 0 from) with from by lia.
  apply lastIndexOf_scan_le. lia.
Qed.

(** *** slice *)

Lemma slice_from_neg_zero {A} (l : list A) : JsArray.slice_from l (- 0) = l.
Proof.
  unfold JsArray.slice_from, JsArray.rel. simpl (- 0 <? 0). cbv iota.
  replace (Z.min (- 0) (Z.of_nat (List.length l))) with 0 by lia.
  reflexivity.
Qed.

Lemma slice_from_last {A} (l : list A) (k : Z) :
  1 <= k ->
  JsArray.slice_from l (- k) = skipn (List.length l - Z.to_nat k) l.
Proof.
  intros Hk. unfold JsArray.slice_from, JsArray.rel.
  destruct (- k <? 0) eqn:E; [|lia].
  f_equal. lia.
Qed.

Lemma slice_prefix {A} (l : list A) (k : Z) :
  0 <= k -> JsArray.slice l 0 k = firstn (Z.to_nat k) l.
Proof.
  intros Hk. unfold JsArray.slice, JsArray.rel.
  destruct (k <? 0) eqn:E; [lia|]. simpl (0 <? 0).
  cbv iota.
  replace (Z.min 0 (Z.of_nat (List.length l))) with 0 by lia.
  simpl skipn. rewrite Z.sub_0_r.
  destruct (Z.le_gt_cases k (Z.of_nat (List.length l))) as [H|H].
  - f_equal. lia.
  - replace (Z.to_nat (Z.min k (Z.of_nat (List.length l))))
      with (List.length l) by lia.
    rewrite firstn_all. symmetry. apply firstn_all2. lia.
Qed.

Lemma in_firstn {A} (n : nat) (l : list A) (x : A) :
  In x (firstn n l) -> In x l.
Proof.
  intros H. rewrite <- (firstn_skipn n l). apply in_or_app. left. exact H.
Qed.

Lemma in_skipn {A} (n : nat) (l : list A) (x : A) :
  In x (skipn n l) -> In x l.
Proof.
  intros H. rewrite <- (firstn_skipn n l). apply in_or_app. right. exact H.
Qed.

Lemma slice_incl {A} (l : list A) (a b : Z) : incl (JsArray.slice l a b) l.
Proof.
  unfold JsArray.slice. intros x Hx.
  apply in_firstn in Hx. apply in_skipn in Hx. exact Hx.
Qed.

Lemma slice_prefix_length {A} (l : list A) (k : Z) :
  0 <= k -> Z.of_nat (List.length (JsArray.slice l 0 k)) <= k.
Proof.
  intros Hk. rewrite slice_prefix by assumption.
  rewrite length_firstn. lia.
Qed.

Lemma slice_from_incl {A} (l : list A) (a : Z) :
  incl (JsArray.slice_from l a) l.
Proof.
  unfold JsArray.slice_from. intros x Hx. apply in_skipn in Hx. exact Hx.
Qed.

End JsFacts.

(* ================================================================= *)
(** ** Facts about maps *)

Module JsMapFacts.

Section WithKey.
Variables K V : Type.
Variable eqb : K -> K -> bool.
Hypothesis eqb_eq : forall a b, eqb a b = true <-> a = b.

Lemma key_eqb_refl (a : K) : eqb a a = true.
Proof. apply eqb_eq. reflexivity. Qed.

Lemma key_eqb_neq (a b : K) : a <> b -> eqb a b = false.
Proof.
  intros H. destruct (eqb a b) eqn:E; [|reflexivity].
  apply eqb_eq in E. contradiction.
Qed.

Lemma get_set_same (m : JsMap.t K V) k v :
  JsMap.get eqb (JsMap.set eqb m k v) k = Some v.
Proof.
  induction m as [|[k' v'] m IH]; simpl.
  - rewrite key_eqb_refl. reflexivity.
  - destruct (eqb k k') eqn:E; simpl.
    + rewrite key_eqb_refl. reflexivity.
    + rewrite E. exact IH.
Qed.

Lemma get_set_other (m : JsMap.t K V) k v k' :
  k <> k' -> JsMap.get eqb (JsMap.set eqb m k v) k' = JsMap.get eqb m k'.
Proof.
  intros Hne. induction m as [|[k0 v0] m IH]; simpl.
  - rewrite key_eqb_neq by congruence. reflexivity.
  - destruct (eqb k k0) eqn:E; simpl.
    + apply eqb_eq in E. subst k0.
      rewrite key_eqb_neq by congruence. reflexivity.
    + destruct (eqb k' k0); [reflexivity | exact IH].
Qed.

Lemma has_set_same (m : JsMap.t K V) k v :
  JsMap.has eqb (JsMap.set eqb m k v) k = true.
Proof. unfold JsMap.has. rewrite get_set_same. reflexivity. Qed.

Lemma has_set_other (m : JsMap.t K V) k v k' :
  k <> k' -> JsMap.has eqb (JsMap.set eqb m k v) k' = JsMap.has eqb m k'.
Proof. intros H. unfold JsMap.has. rewrite get_set_other; auto. Qed.

Lemma has_keys (m : JsMap.t K V) k :
  JsMap.has eqb m k = true <-> In k (JsMap.keys m).
Proof.
  unfold JsMap.has, JsMap.keys.
  induction m as [|[k' v'] m IH]; simpl.
  - split; [discriminate | tauto].
  - destruct (eqb k k') eqn:E.
    + apply eqb_eq in E. subst. split; auto.
    + rewrite IH. split; [tauto|].
      intros [H|H]; [|exact H]. subst. rewrite key_eqb_refl in E. discriminate.
Qed.

Lemma keys_set_present (m : JsMap.t K V) k v :
  JsMap.has eqb m k = true ->
  JsMap.keys (JsMap.set eqb m k v) = JsMap.keys m.
Proof.
  unfold JsMap.has, JsMap.keys.
  induction m as [|[k' v'] m IH]; simpl; [discriminate|].
  destruct (eqb k k') eqn:E; simpl.
  - apply eqb_eq in E. subst. reflexivity.
  - intros H. f_equal. apply IH. exact H.
Qed.

Lemma keys_set_absent (m : JsMap.t K V) k v :
  JsMap.has eqb m k = false ->
  JsMap.keys (JsMap.set eqb m k v) = JsMap.keys m ++ [k].
Proof.
  unfold JsMap.has, JsMap.keys.
  induction m as [|[k' v'] m IH]; simpl; [reflexivity|].
  destruct (eqb k k') eqn:E; simpl; [discriminate|].
  intros H. f_equal. apply IH. exact H.
Qed.

Lemma keys_set_NoDup (m : JsMap.t K V) k v :
  NoDup (JsMap.keys m) -> NoDup (JsMap.keys (JsMap.set eqb m k v)).
Proof.
  intros H. destruct (JsMap.has eqb m k) eqn:E.
  - rewrite keys_set_present by assumption. exact H.
  - rewrite keys_set_absent by assumption.
    apply NoDup_rev in H. rewrite <- (rev_involutive (_ ++ _)).
    apply NoDup_rev. rewrite rev_app_distr. simpl. constructor; [|exact H].
    rewrite <- in_rev. intros Hin. apply has_keys in Hin. congruence.
Qed.

Lemma in_set (m : JsMap.t K V) k v k' v' :
  In (k', v') (JsMap.set eqb m k v) ->
  (k' = k /\ v' = v) \/ In (k', v') m.
Proof.
  induction m as [|[k0 v0] m IH]; simpl.
  - intros [H|[]]. injection H as <- <-. auto.
  - destruct (eqb k k0); simpl.
    + intros [H|H]; [injection H as <- <-; auto | auto].
    + intros [H|H]; [auto | apply IH in H; tauto].
Qed.

Lemma get_in (m : JsMap.t K V) k v :
  JsMap.get eqb m k = Some v -> In (k, v) m.
Proof.
  induction m as [|[k0 v0] m IH]; simpl; [discriminate|].
  destruct (eqb k k0) eqn:E.
  - apply eqb_eq in E. subst. intros H. injection H as ->. auto.
  - auto.
Qed.

Lemma in_get (m : JsMap.t K V) k v :
  In (k, v) m -> exists v', JsMap.get eqb m k = Some v'.
Proof.
  induction m as [|[k0 v0] m IH]; simpl; [tauto|].
  intros [H|H].
  - injection H as -> ->. rewrite key_eqb_refl. eauto.
  - destruct (eqb k k0); eauto.
Qed.

Lemma in_get_NoDup (m : JsMap.t K V) k v :
  NoDup (JsMap.keys m) -> In (k, v) m -> JsMap.get eqb m k = Some v.
Proof.
  unfold JsMap.keys.
  induction m as [|[k0 v0] m IH]; simpl; [tauto|].
  intros Hnd [H|H].
  - injection H as -> ->. rewrite key_eqb_refl. reflexivity.
  - inversion Hnd as [|? ? Hnotin Hnd']; subst.
    destruct (eqb k k0) eqn:E.
    + apply eqb_eq in E. subst. exfalso. apply Hnotin.
      apply (in_map fst) in H. exact H.
    + apply IH; assumption.
Qed.

Lemma has_in (m : JsMap.t K V) k :
  JsMap.has eqb m k = true -> exists v, In (k, v) m.
Proof.
  unfold JsMap.has. destruct (JsMap.get eqb m k) as [v|] eqn:E;
    [|discriminate].
  intros _. exists v. apply get_in. exact E.
Qed.

Lemma in_has (m : JsMap.t K V) k v :
  In (k, v) m -> JsMap.has eqb m k = true.
Proof.
  intros H. apply in_get in H. destruct H as [v' H].
  unfold JsMap.has. rewrite H. reflexivity.
Qed.
End WithKey.

End JsMapFacts.

(* ================================================================= *)
(** ** Invariants of the indexer *)

Unset Implicit Arguments.

Module IndexerFacts.
Import JsString JsFacts ChatIndexer Invariants.

Local Open Scope Z_scope.

Lemma fold_left_inv {A B} (P : B -> Prop) (f : B -> A -> B) (l : list A) :
  (forall b a, In a l -> P b -> P (f b a)) ->
  forall b, P b -> P (fold_left f l b).
Proof.
  induction l as [|a l IH]; intros Hstep b Hb; simpl; [exact Hb|].
  apply IH.
  - intros b' a' Hin. apply Hstep. right. exact Hin.
  - apply Hstep; [left; reflexivity | exact Hb].
Qed.

(** *** extractKeywords *)

Lemma tally_ok (m : KeywordMap) (w : jsstring) :
  keyword_map_ok m -> keyword_map_ok (tally m w).
Proof.
  intros [Hnd Hpos]. split.
  - apply JsMapFacts.keys_set_NoDup; [apply str_eqb_eq | exact Hnd].
  - unfold positive_counts, tally in *. rewrite Forall_forall in *.
    intros [k v] Hin. apply JsMapFacts.in_set in Hin.
    destruct Hin as [[_ ->]|Hin]; simpl; [lia | apply (Hpos _ Hin)].
Qed.

Lemma extractKeywords_ok (t : jsstring) : keyword_map_ok (extractKeywords t).
Proof.
  unfold extractKeywords. apply fold_left_inv.
  - intros b a _. apply tally_ok.
  - split; [constructor | constructor].
Qed.

Lemma kw_has_keys (m : KeywordMap) (w : jsstring) :
  kw_has m w = true <-> In w (JsMap.keys m).
Proof. apply JsMapFacts.has_keys. apply str_eqb_eq. Qed.

Lemma kw_get_positive (m : KeywordMap) (w : jsstring) (n : nat) :
  positive_counts m -> kw_get m w = Some n -> (1 <= n)%nat.
Proof.
  intros Hpos Hget. apply JsMapFacts.get_in in Hget; [|apply str_eqb_eq].
  unfold positive_counts in Hpos. rewrite Forall_forall in Hpos.
  apply (Hpos _ Hget).
Qed.

Lemma kw_has_get (m : KeywordMap) (w : jsstring) :
  kw_has m w = true <-> exists n, kw_get m w = Some n.
Proof.
  unfold kw_has, kw_get, JsMap.has.
  destruct (JsMap.get str_eqb m w) as [n|]; split; intros H;
    try reflexivity; try discriminate; eauto.
  destruct H as [n H]. discriminate.
Qed.

(** *** chunkEnd *)

Lemma breakPoints_short (bp : jsstring) :
  In bp breakPoints -> strlen bp <= 15.
Proof.
  unfold breakPoints. simpl.
  intros [<-|[<-|[<-|[<-|[]]]]]; vm_compute; discriminate.
Qed.

Lemma tryBreak_bound (content : jsstring) (e searchStart best : Z)
      (bp : jsstring) :
  0 <= e -> strlen bp <= 15 -> best <= e + 15 ->
  tryBreak content e searchStart best bp <= e + 15.
Proof.
  intros He Hbp Hbest. unfold tryBreak.
  destruct ((searchStart <? lastIndexOf content bp e)
            && (best <? lastIndexOf content bp e)); [|exact Hbest].
  pose proof (lastIndexOf_le content bp He) as Hpos.
  destruct (str_eqb bp (str ". ")); lia.
Qed.

Lemma chunkEnd_bounds (content : jsstring) (st : Z) :
  0 <= st < strlen content ->
  st < chunkEnd content st <= st + CHUNK_SIZE + 15.
Proof.
  intros [H0 Hlt]. unfold chunkEnd, CHUNK_SIZE in *.
  set (e := Z.min (st + 800) (strlen content)).
  assert (He : st < e <= st + 800) by (subst e; lia).
  destruct (e <? strlen content); [|lia].
  set (b := fold_left _ breakPoints (-1)).
  assert (Hb : b <= e + 15).
  { subst b. apply fold_left_inv; [|lia].
    intros b bp Hin Hle. apply tryBreak_bound; try lia.
    apply breakPoints_short. exact Hin. }
  destruct (st <? b) eqn:E; [apply Z.ltb_lt in E|]; lia.
Qed.

(** *** createChunks *)

(** Whatever one round of the loop preserves holds when the loop ends. *)
Lemma createChunks_loop_inv (content : jsstring)
      (Inv : Z -> list Chunk -> Prop) :
  (forall st acc, Inv st acc -> 0 <= st < strlen content ->
     let e := chunkEnd content st in
     Inv (Z.max (st + 1) (e - CHUNK_OVERLAP))
         (pushChunk acc (trim (substring content st e)) st e)) ->
  forall fuel st acc, 0 <= st -> Inv st acc ->
    exists st', Inv st' (createChunks_loop fuel content st acc).
Proof.
  intros Hstep. induction fuel as [|fuel IH]; intros st acc H0 Hinv; simpl.
  - eauto.
  - destruct (st <? strlen content) eqn:E; [|eauto].
    apply Z.ltb_lt in E.
    specialize (Hstep st acc Hinv (conj H0 E)). simpl in Hstep.
    destruct (strlen content - 30 <=? _); [eauto|].
    apply IH; [lia | exact Hstep].
Qed.

Lemma pushChunk_ok (acc : list Chunk) (content : jsstring) (st : Z) :
  0 <= st < strlen content ->
  Forall chunk_ok acc /\ ids_ok acc ->
  let e := chunkEnd content st in
  let acc' := pushChunk acc (trim (substring content st e)) st e in
  Forall chunk_ok acc' /\ ids_ok acc'.
Proof.
  intros Hst [Hall Hids]. simpl. unfold pushChunk.
  destruct (30 <? strlen _) eqn:E; [|split; assumption].
  apply Z.ltb_lt in E.
  pose proof (chunkEnd_bounds content st Hst) as Hb.
  split.
  - apply Forall_app. split; [exact Hall|].
    constructor; [|constructor].
    pose proof (trim_length (substring content st (chunkEnd content st)))
      as Ht.
    assert (Hs : strlen (substring content st (chunkEnd content st))
                 <= chunkEnd content st - st)
      by (apply substring_length_le; lia).
    unfold chunk_ok, MAX_TEXT, CHUNK_SIZE in *. simpl.
    repeat split; try reflexivity; lia.
  - unfold ids_ok in *. rewrite map_app, length_app. simpl.
    rewrite Hids. rewrite Nat.add_1_r, seq_S. reflexivity.
Qed.

Lemma createChunks_ok (content : jsstring) :
  Forall chunk_ok (createChunks content) /\ ids_ok (createChunks content).
Proof.
  unfold createChunks.
  destruct (@createChunks_loop_inv content
              (fun _ acc => Forall chunk_ok acc /\ ids_ok acc))
    with (fuel := maxIterations) (st := 0) (acc := @nil Chunk)
    as [st' H].
  - intros st acc Hinv Hst. apply pushChunk_ok; assumption.
  - lia.
  - split; [constructor | reflexivity].
  - exact H.
Qed.

Lemma ids_ok_nth (cs : list Chunk) (i : nat) (c : Chunk) :
  ids_ok cs -> nth_error cs i = Some c -> id c = i.
Proof.
  unfold ids_ok. intros Hids Hnth.
  assert (Hi : (i < List.length cs)%nat).
  { apply nth_error_Some. congruence. }
  pose proof (map_nth_error id _ _ Hnth) as H.
  rewrite Hids in H. rewrite nth_error_seq in H.
  destruct (Nat.ltb_spec i (List.length cs)); [|lia].
  simpl in H. congruence.
Qed.

Lemma ids_ok_NoDup (cs : list Chunk) : ids_ok cs -> NoDup cs.
Proof.
  unfold ids_ok. intros H. apply (NoDup_map_inv id). rewrite H.
  apply seq_NoDup.
Qed.

Lemma ids_ok_lookup (cs : list Chunk) (c : Chunk) :
  ids_ok cs -> In c cs -> nth_error cs (id c) = Some c.
Proof.
  intros Hids Hin. apply In_nth_error in Hin. destruct Hin as [i Hi].
  rewrite (ids_ok_nth _ _ _ Hids Hi). exact Hi.
Qed.

Lemma pushChunk_cases (acc : list Chunk) (t : jsstring) (st e : Z) :
  (30 < strlen t
   /\ pushChunk acc t st e
      = acc ++ [mkChunk (List.length acc) t st e (extractKeywords t)])
  \/ (strlen t <= 30 /\ pushChunk acc t st e = acc).
Proof.
  unfold pushChunk. destruct (30 <? strlen t) eqn:E.
  - left. apply Z.ltb_lt in E. auto.
  - right. apply Z.ltb_ge in E. auto.
Qed.

Lemma createChunks_loop_extends (content : jsstring) (fuel : nat) :
  forall st acc,
    exists ext, createChunks_loop fuel content st acc = acc ++ ext.
Proof.
  induction fuel as [|fuel IH]; intros st acc; simpl.
  - exists []. rewrite app_nil_r. reflexivity.
  - destruct (st <? strlen content); [|exists []; rewrite app_nil_r; auto].
    set (e := chunkEnd content st).
    set (t := trim (substring content st e)).
    assert (Hpush : exists ext, pushChunk acc t st e = acc ++ ext).
    { destruct (pushChunk_cases acc t st e) as [[_ ->]|[_ ->]].
      - eauto.
      - exists []. rewrite app_nil_r. reflexivity. }
    destruct Hpush as [ext1 Hpush]. rewrite Hpush.
    destruct (strlen content - 30 <=? _); [eauto|].
    destruct (IH (Z.max (st + 1) (e - CHUNK_OVERLAP)) (acc ++ ext1))
      as [ext2 ->].
    exists (ext1 ++ ext2). rewrite app_assoc. reflexivity.
Qed.




(** *** Consecutive chunks *)

Lemma chain_step (content : jsstring) (st : Z) (acc : list Chunk) :
  chain_inv content st acc -> 0 <= st < strlen content ->
  let e := chunkEnd content st in
  chain_inv content (Z.max (st + 1) (e - CHUNK_OVERLAP))
            (pushChunk acc (trim (substring content st e)) st e).
Proof.
  intros [Hpairs Hlast] Hst e.
  pose proof (chunkEnd_bounds content st Hst) as Hb. fold e in Hb.
  unfold CHUNK_OVERLAP.
  set (t := trim (substring content st e)).
  destruct (pushChunk_cases acc t st e) as [[Hlen ->]|[Hlen ->]].
  - split.
    + intros i c c' Hc Hc'.
      destruct (Nat.lt_ge_cases (S i) (List.length acc)) as [Hi|Hi].
      * rewrite nth_error_app1 in Hc, Hc' by lia.
        apply (Hpairs i c c' Hc Hc').
      * assert (Hi' : S i = List.length acc).
        { assert (S i < List.length (acc ++ [mkChunk (List.length acc) t st e
                                               (extractKeywords t)]))%nat.
          { apply nth_error_Some. congruence. }
          rewrite length_app in H. simpl in H. lia. }
        rewrite nth_error_app1 in Hc by lia.
        rewrite nth_error_app2 in Hc' by lia.
        replace (S i - List.length acc)%nat with O in Hc' by lia.
        simpl in Hc'. injection Hc' as <-.
        replace i with (List.length acc - 1)%nat in Hc by lia.
        apply Hlast in Hc. exact Hc.
    + intros c Hc. rewrite length_app in Hc. simpl in Hc.
      rewrite nth_error_app2 in Hc by lia.
      replace (List.length acc + 1 - 1 - List.length acc)%nat with O in Hc
        by lia.
      simpl in Hc. injection Hc as <-.
      unfold follows. simpl. split; [lia | left; lia].
  - split; [exact Hpairs|].
    intros c Hc. destruct (Hlast c Hc) as [Hlt _].
    unfold follows. split; [lia|].
    right. exists st. split; [lia | exact Hlen].
Qed.

Lemma createChunks_linked (content : jsstring) (i : nat) (c c' : Chunk) :
  nth_error (createChunks content) i = Some c ->
  nth_error (createChunks content) (S i) = Some c' ->
  linked content c c'.
Proof.
  unfold createChunks.
  destruct (createChunks_loop_inv content (chain_inv content)
              (chain_step content) maxIterations 0 [])
    as [st' [Hpairs _]].
  - lia.
  - split.
    + intros j x y Hx. destruct j; discriminate.
    + intros x Hx. discriminate.
  - apply Hpairs.
Qed.

(** *** buildKeywordIndex *)

Lemma same_keys_has {V W} (m1 : JsMap.t jsstring V) (m2 : JsMap.t jsstring W)
      (k : jsstring) :
  JsMap.keys m1 = JsMap.keys m2 ->
  JsMap.has str_eqb m1 k = JsMap.has str_eqb m2 k.
Proof.
  intros Hk.
  pose proof (JsMapFacts.has_keys str_eqb str_eqb_eq m1 k) as H1.
  pose proof (JsMapFacts.has_keys str_eqb str_eqb_eq m2 k) as H2.
  rewrite Hk in H1.
  destruct (JsMap.has str_eqb m1 k), (JsMap.has str_eqb m2 k);
    try reflexivity.
  - symmetry. apply H2, H1. reflexivity.
  - apply H1, H2. reflexivity.
Qed.

Lemma keys_after_set {V} (m : JsMap.t jsstring V) (k : jsstring) (v : V) :
  JsMap.keys (JsMap.set str_eqb m k v)
  = if JsMap.has str_eqb m k then JsMap.keys m else JsMap.keys m ++ [k].
Proof.
  destruct (JsMap.has str_eqb m k) eqn:E.
  - apply JsMapFacts.keys_set_present; [apply str_eqb_eq | exact E].
  - apply JsMapFacts.keys_set_absent. exact E.
Qed.

Lemma indexKeyword_keys (cid : nat) (ix : Index) (entry : jsstring * nat) :
  JsMap.keys (fst ix) = JsMap.keys (snd ix) ->
  JsMap.keys (fst (indexKeyword cid ix entry))
  = JsMap.keys (snd (indexKeyword cid ix entry)).
Proof.
  destruct ix as [ki df], entry as [k n]. simpl. intros Hk.
  rewrite !keys_after_set.
  rewrite <- (same_keys_has ki df k Hk), <- Hk.
  destruct (JsMap.has str_eqb ki k) eqn:E.
  - rewrite E. reflexivity.
  - rewrite JsMapFacts.has_set_same by apply str_eqb_eq.
    apply JsMapFacts.keys_set_absent. exact E.
Qed.

Lemma indexKeyword_postings (cid : nat) (ix : Index) (k : jsstring) (n : nat)
      (w : jsstring) :
  postings (fst (indexKeyword cid ix (k, n))) w
  = postings (fst ix) w ++ once (str_eqb w k) cid.
Proof.
  destruct ix as [ki df]. unfold indexKeyword, postings. simpl.
  destruct (str_eqb w k) eqn:E; simpl.
  - apply str_eqb_eq in E. subst w.
    rewrite JsMapFacts.get_set_same by apply str_eqb_eq.
    f_equal. unfold JsMap.has.
    destruct (JsMap.get str_eqb ki k) as [l|] eqn:G.
    + rewrite G. reflexivity.
    + rewrite JsMapFacts.get_set_same by apply str_eqb_eq. reflexivity.
  - apply str_eqb_neq in E. rewrite app_nil_r.
    rewrite JsMapFacts.get_set_other by (try apply str_eqb_eq; congruence).
    destruct (JsMap.has str_eqb ki k); [reflexivity|].
    rewrite JsMapFacts.get_set_other by (try apply str_eqb_eq; congruence).
    reflexivity.
Qed.

Lemma indexKeyword_docFreq (cid : nat) (ix : Index) (k : jsstring) (n : nat)
      (w : jsstring) :
  docFreq (snd (indexKeyword cid ix (k, n))) w
  = (docFreq (snd ix) w + List.length (once (str_eqb w k) cid))%nat.
Proof.
  destruct ix as [ki df]. unfold indexKeyword, docFreq. simpl.
  destruct (str_eqb w k) eqn:E; simpl.
  - apply str_eqb_eq in E. subst w.
    rewrite JsMapFacts.get_set_same by apply str_eqb_eq. reflexivity.
  - apply str_eqb_neq in E.
    rewrite JsMapFacts.get_set_other by (try apply str_eqb_eq; congruence).
    lia.
Qed.

Lemma kw_has_cons (k : jsstring) (n : nat) (m : KeywordMap) (w : jsstring) :
  kw_has ((k, n) :: m) w = str_eqb w k || kw_has m w.
Proof.
  unfold kw_has, JsMap.has. simpl. destruct (str_eqb w k); reflexivity.
Qed.

Lemma indexChunk_entries (cid : nat) (kws : KeywordMap) (w : jsstring) :
  NoDup (JsMap.keys kws) ->
  forall ix,
    postings (fst (fold_left (indexKeyword cid) kws ix)) w
    = postings (fst ix) w ++ once (kw_has kws w) cid
    /\ docFreq (snd (fold_left (indexKeyword cid) kws ix)) w
       = (docFreq (snd ix) w + List.length (once (kw_has kws w) cid))%nat.
Proof.
  induction kws as [|[k n] kws IH]; intros Hnd ix; simpl.
  - rewrite app_nil_r. split; [reflexivity | lia].
  - unfold JsMap.keys in Hnd. simpl in Hnd.
    inversion Hnd as [|? ? Hnotin Hnd']; subst.
    destruct (IH Hnd' (indexKeyword cid ix (k, n))) as [IHp IHd].
    rewrite IHp, IHd, indexKeyword_postings, indexKeyword_docFreq.
    rewrite kw_has_cons.
    destruct (str_eqb w k) eqn:E; simpl.
    + apply str_eqb_eq in E. subst w.
      assert (Hno : kw_has kws k = false).
      { destruct (kw_has kws k) eqn:Hh; [|reflexivity].
        apply kw_has_keys in Hh. contradiction. }
      rewrite Hno. simpl. rewrite app_nil_r. split; [reflexivity | lia].
    + rewrite app_nil_r. split; [reflexivity | lia].
Qed.

Lemma holders_cons (c : Chunk) (cs : list Chunk) (w : jsstring) :
  holders (c :: cs) w = once (kw_has (keywords c) w) (id c) ++ holders cs w.
Proof.
  unfold holders. simpl. destruct (kw_has (keywords c) w); reflexivity.
Qed.

Lemma buildKeywordIndex_spec (cs : list Chunk) (w : jsstring) :
  Forall (fun c => NoDup (JsMap.keys (keywords c))) cs ->
  forall ix,
    postings (fst (buildKeywordIndex cs ix)) w
    = postings (fst ix) w ++ holders cs w
    /\ docFreq (snd (buildKeywordIndex cs ix)) w
       = (docFreq (snd ix) w + List.length (holders cs w))%nat.
Proof.
  unfold buildKeywordIndex.
  induction cs as [|c cs IH]; intros Hall ix; simpl.
  - rewrite app_nil_r. split; [reflexivity | unfold holders; simpl; lia].
  - inversion Hall as [|? ? Hc Hcs]; subst.
    destruct (IH Hcs (indexChunk ix c)) as [IHp IHd].
    destruct (@indexChunk_entries (id c) (keywords c) w Hc ix) as [Hp Hd].
    unfold indexChunk in *.
    rewrite IHp, IHd, Hp, Hd, holders_cons, length_app, <- app_assoc.
    split; [reflexivity | lia].
Qed.

Lemma buildKeywordIndex_keys (cs : list Chunk) (ix : Index) :
  JsMap.keys (fst ix) = JsMap.keys (snd ix) ->
  JsMap.keys (fst (buildKeywordIndex cs ix))
  = JsMap.keys (snd (buildKeywordIndex cs ix)).
Proof.
  unfold buildKeywordIndex. revert ix.
  induction cs as [|c cs IH]; intros ix Hk; simpl; [exact Hk|].
  apply IH. unfold indexChunk. apply fold_left_inv; [|exact Hk].
  intros b a _. apply indexKeyword_keys.
Qed.

Lemma chunk_ok_NoDup (cs : list Chunk) :
  Forall chunk_ok cs -> Forall (fun c => NoDup (JsMap.keys (keywords c))) cs.
Proof.
  apply Forall_impl. intros c [Hk _]. rewrite Hk.
  apply extractKeywords_ok.
Qed.

Lemma ascending_seq (a n : nat) : ascending (seq a n).
Proof.
  revert a. induction n as [|n IH]; intros a; simpl; [exact I|].
  split; [|apply IH].
  apply Forall_forall. intros y Hy. apply in_seq in Hy. lia.
Qed.

Lemma ascending_filter_map (f : Chunk -> bool) (cs : list Chunk) :
  ascending (map id cs) -> ascending (map id (filter f cs)).
Proof.
  induction cs as [|c cs IH]; simpl; [tauto|].
  intros [Hall Hasc]. destruct (f c); simpl; [split|]; auto.
  rewrite Forall_forall in *. intros y Hy. apply Hall.
  apply in_map_iff in Hy. destruct Hy as [c' [<- Hc']].
  apply filter_In in Hc'. apply in_map. tauto.
Qed.

Lemma holders_ascending (cs : list Chunk) (w : jsstring) :
  ids_ok cs -> ascending (holders cs w).
Proof.
  intros Hids. unfold holders. apply ascending_filter_map.
  rewrite Hids. apply ascending_seq.
Qed.

(** *** Engine states *)

Lemma wf_empty (b : bool) : wf (mkState [] [] [] b).
Proof.
  constructor; simpl; try reflexivity; try constructor.
Qed.

Lemma wf_rebuild (content : jsstring) :
  let cs := createChunks content in
  let ix := buildKeywordIndex cs ([], []) in
  wf (mkState cs (fst ix) (snd ix) true).
Proof.
  simpl. destruct (createChunks_ok content) as [Hok Hids].
  constructor; simpl; try assumption.
  - intros w.
    destruct (buildKeywordIndex_spec _ w (chunk_ok_NoDup _ Hok) ([], []))
      as [Hp _].
    exact Hp.
  - intros w.
    destruct (buildKeywordIndex_spec _ w (chunk_ok_NoDup _ Hok) ([], []))
      as [_ Hd].
    exact Hd.
  - apply buildKeywordIndex_keys. reflexivity.
  - discriminate.
Qed.

Lemma indexConversation_wf (messages : option (list Message)) (s : State) :
  wf s -> wf (snd (indexConversation messages s)).
Proof.
  intros Hs. destruct messages as [[|m ms]|]; simpl; try exact Hs.
  apply wf_rebuild.
Qed.

Lemma reachable_wf (s : State) : reachable s -> wf s.
Proof.
  induction 1.
  - apply wf_empty.
  - apply indexConversation_wf. assumption.
  - apply wf_empty.
Qed.

End IndexerFacts.

(* ================================================================= *)
(** ** Facts about search and context assembly *)

Module SearchFacts.
Import JsString JsFacts ChatIndexer Invariants IndexerFacts.

Local Open Scope Z_scope.

(** *** The stable sort *)

Section SortFacts.
Variable A : Type.
Variable le : A -> A -> bool.

Lemma insert_In (a x : A) (l : list A) :
  In x (insert le a l) <-> x = a \/ In x l.
Proof.
  induction l as [|y l IH]; simpl.
  - split; intros [H|H]; auto.
  - destruct (le a y); simpl.
    + split; intros [H|H]; auto.
    + rewrite IH. split; intros H; intuition.
Qed.

Lemma sort_In (x : A) (l : list A) : In x (sort le l) <-> In x l.
Proof.
  induction l as [|a l IH]; simpl; [tauto|].
  rewrite insert_In, IH. split; intros [H|H]; auto.
Qed.

Lemma insert_length (a : A) (l : list A) :
  List.length (insert le a l) = S (List.length l).
Proof.
  induction l as [|y l IH]; simpl; [reflexivity|].
  destruct (le a y); simpl; [reflexivity | rewrite IH; reflexivity].
Qed.

Lemma sort_length (l : list A) : List.length (sort le l) = List.length l.
Proof.
  induction l as [|a l IH]; simpl; [reflexivity|].
  rewrite insert_length, IH. reflexivity.
Qed.
End SortFacts.

(** *** Arrays with holes *)

Lemma defined_In {A} (l : list (option A)) (a : A) :
  In a (defined l) <-> In (Some a) l.
Proof.
  unfold defined. rewrite in_flat_map. split.
  - intros [[x|] [Hin Hx]]; simpl in Hx; [|tauto].
    destruct Hx as [<-|[]]. exact Hin.
  - intros H. exists (Some a). simpl. auto.
Qed.

Lemma undefineds_nil {A} (l : list (option A)) :
  (forall x, In x l -> x <> None) -> undefineds l = [].
Proof.
  unfold undefineds. induction l as [|[a|] l IH]; intros H; simpl.
  - reflexivity.
  - apply IH. intros x Hx. apply H. right. exact Hx.
  - exfalso. apply (H None); [left|]; reflexivity.
Qed.

Lemma defined_undefineds_length {A} (l : list (option A)) :
  (List.length (defined l) + List.length (undefineds l))%nat = List.length l.
Proof.
  unfold defined, undefineds. induction l as [|[a|] l IH]; simpl; lia.
Qed.

Lemma sortByStart_length (l : list (option Chunk)) :
  List.length (sortByStart l) = List.length l.
Proof.
  unfold sortByStart. rewrite length_app, length_map, sort_length.
  apply defined_undefineds_length.
Qed.

Lemma sortByStart_In (l : list (option Chunk)) (x : option Chunk) :
  In x (sortByStart l) -> In x l.
Proof.
  unfold sortByStart. intros H. apply in_app_or in H. destruct H as [H|H].
  - apply in_map_iff in H. destruct H as [c [<- Hc]].
    apply sort_In in Hc. apply defined_In. exact Hc.
  - unfold undefineds in H. apply filter_In in H. tauto.
Qed.

(** *** Scores *)

Lemma recordScore_In (s : State) (qk : KeywordMap) (scores : Scores)
      (c : Chunk) (k : nat) (v : R) :
  In (k, v) (recordScore s qk scores c) ->
  In (k, v) scores
  \/ (k = id c /\ v = chunkScore s qk c /\ (0 < v)%R).
Proof.
  unfold recordScore. destruct (Rlt_dec 0 (chunkScore s qk c)) as [Hpos|Hneg].
  - intros H. apply JsMapFacts.in_set in H.
    destruct H as [[-> ->]|H]; auto.
  - auto.
Qed.

Lemma computeScores_In (s : State) (qk : KeywordMap) (k : nat) (v : R) :
  In (k, v) (computeScores s qk) ->
  exists c, In c (chunks s) /\ k = id c /\ v = chunkScore s qk c
            /\ (0 < v)%R.
Proof.
  unfold computeScores.
  apply (@fold_left_inv Chunk Scores
           (fun scores => In (k, v) scores ->
              exists c, In c (chunks s) /\ k = id c
                        /\ v = chunkScore s qk c /\ (0 < v)%R)).
  - intros scores c Hc IH H. apply recordScore_In in H.
    destruct H as [H|H]; [auto|]. exists c. tauto.
  - intros [].
Qed.

Lemma computeScores_skip (s : State) (qk : KeywordMap) (cs : list Chunk)
      (scores : Scores) :
  (forall c, In c cs -> ~ (0 < chunkScore s qk c)%R) ->
  fold_left (recordScore s qk) cs scores = scores.
Proof.
  revert scores. induction cs as [|c cs IH]; intros scores H; simpl.
  - reflexivity.
  - unfold recordScore at 2.
    destruct (Rlt_dec 0 (chunkScore s qk c)) as [Hpos|_].
    + exfalso. apply (H c); [left; reflexivity | exact Hpos].
    + apply IH. intros c' Hc'. apply H. right. exact Hc'.
Qed.

(** *** The sign of a score *)

Lemma dfOr1_docFreq (s : State) (w : jsstring) :
  dfOr1 s w = match docFreq (documentFrequency s) w with
              | O => 1%nat
              | S n => S n
              end.
Proof.
  unfold dfOr1, docFreq.
  destruct (JsMap.get str_eqb (documentFrequency s) w) as [[|n]|];
    reflexivity.
Qed.

Lemma idf_rare (N : nat) : (2 <= N)%nat -> (0 < idf N 1)%R.
Proof.
  intros HN. unfold idf. simpl INR. unfold Rdiv.
  rewrite Rinv_1, Rmult_1_r, <- ln_1.
  apply ln_increasing; [lra|].
  change 1%R with (INR 1). apply lt_INR. lia.
Qed.

Lemma idf_only : idf 1 1 = 0%R.
Proof.
  unfold idf. simpl INR. unfold Rdiv. rewrite Rinv_1, Rmult_1_r.
  apply ln_1.
Qed.

Lemma recencyBoost_pos (N : nat) (c : Chunk) :
  (1 <= N)%nat -> (0 < recencyBoost N c)%R.
Proof.
  intros HN. unfold recencyBoost.
  assert (H : (0 <= INR (id c) / INR N)%R).
  { unfold Rdiv. apply Rmult_le_pos; [apply pos_INR|].
    left. apply Rinv_0_lt_compat. apply lt_0_INR. lia. }
  lra.
Qed.

(** Query words the chunk does not have add nothing. *)
Lemma fold_addTerm_absent (s : State) (N : nat) (c : Chunk)
      (qk : KeywordMap) :
  (forall e, In e qk -> kw_get (keywords c) (fst e) = None) ->
  forall acc, fold_left (addTerm s N c) qk acc = acc.
Proof.
  induction qk as [|e qk IH]; intros H acc; simpl; [reflexivity|].
  assert (Ha : addTerm s N c acc e = acc)
    by (unfold addTerm; rewrite (H e (or_introl eq_refl)); reflexivity).
  rewrite Ha.
  apply IH. intros e' He'. apply H. right. exact He'.
Qed.

(** When every term that is added is positive the sum does not go down,
    and it goes up as soon as one term is added. *)
Lemma fold_addTerm_positive (s : State) (N : nat) (c : Chunk)
      (qk : KeywordMap) :
  (forall e tf, In e qk -> kw_get (keywords c) (fst e) = Some tf ->
                (0 < INR tf * idf N (dfOr1 s (fst e)) * INR (snd e))%R) ->
  forall acc,
    (acc <= fold_left (addTerm s N c) qk acc)%R
    /\ ((exists e, In e qk /\ kw_get (keywords c) (fst e) <> None) ->
        (acc < fold_left (addTerm s N c) qk acc)%R).
Proof.
  induction qk as [|e qk IH]; intros H acc; simpl.
  - split; [lra|]. intros [e [[] _]].
  - assert (Hrest : forall e' tf, In e' qk ->
              kw_get (keywords c) (fst e') = Some tf ->
              (0 < INR tf * idf N (dfOr1 s (fst e')) * INR (snd e'))%R).
    { intros e' tf He'. apply H. right. exact He'. }
    destruct (IH Hrest (addTerm s N c acc e)) as [Hle Hlt].
    destruct (kw_get (keywords c) (fst e)) as [tf|] eqn:G.
    + assert (Ha : addTerm s N c acc e
                   = (acc + INR tf * idf N (dfOr1 s (fst e))
                            * INR (snd e))%R)
        by (unfold addTerm; rewrite G; reflexivity).
      rewrite Ha in *.
      pose proof (H e tf (or_introl eq_refl) G) as Hpos.
      split; [lra | intros _; lra].
    + assert (Ha : addTerm s N c acc e = acc)
        by (unfold addTerm; rewrite G; reflexivity).
      rewrite Ha in *.
      split; [exact Hle|].
      intros [e' [[<-|He'] Hne]]; [congruence|].
      apply Hlt. exists e'. split; assumption.
Qed.

Lemma chunkScore_absent (s : State) (qk : KeywordMap) (c : Chunk) :
  (forall w, kw_has qk w = true -> kw_has (keywords c) w = false) ->
  chunkScore s qk c = 0%R.
Proof.
  intros H. unfold chunkScore. rewrite fold_addTerm_absent.
  - apply Rmult_0_l.
  - intros [w n] Hin. simpl.
    assert (Hq : kw_has qk w = true).
    { apply (JsMapFacts.in_has str_eqb str_eqb_eq qk w n Hin). }
    apply H in Hq. unfold kw_has, JsMap.has in Hq. unfold kw_get.
    destruct (JsMap.get str_eqb (keywords c) w); [discriminate|reflexivity].
Qed.

Lemma filter_only {A} (f : A -> bool) (l : list A) (a : A) :
  NoDup l -> In a l -> f a = true ->
  (forall x, In x l -> f x = true -> x = a) ->
  filter f l = [a].
Proof.
  induction l as [|x l IH]; intros Hnd Hin Hfa Huniq; [destruct Hin|].
  inversion Hnd as [|? ? Hnotin Hnd']; subst. simpl.
  assert (Hnone : forall l', ~ In a l' ->
            (forall y, In y l' -> f y = true -> y = a) -> filter f l' = []).
  { induction l' as [|y l' IHl]; intros Hna Hu; simpl; [reflexivity|].
    destruct (f y) eqn:E.
    - exfalso. apply Hna. left. apply Hu; [left; reflexivity | exact E].
    - apply IHl.
      + intros Hy. apply Hna. right. exact Hy.
      + intros z Hz. apply Hu. right. exact Hz. }
  destruct Hin as [->|Hin].
  - rewrite Hfa. f_equal. apply Hnone; [exact Hnotin|].
    intros y Hy. apply Huniq. right. exact Hy.
  - destruct (f x) eqn:E.
    + assert (x = a) by (apply Huniq; [left; reflexivity | exact E]).
      subst x. contradiction.
    + apply IH; try assumption.
      intros y Hy. apply Huniq. right. exact Hy.
Qed.

(** *** search *)

(** In the ranking branch every entry of the result is a stored chunk
    that scored above zero. *)
Lemma search_ranked (s : State) (query : jsstring) (topK : Z)
      (x : option Chunk) :
  wf s -> extractKeywords query <> [] -> In x (search s query topK) ->
  exists c, x = Some c /\ In c (chunks s)
            /\ (0 < chunkScore s (extractKeywords query) c)%R.
Proof.
  intros Hwf Hq. unfold search.
  destruct (negb (isIndexed s) || (List.length (chunks s) =? 0)%nat);
    [intros []|].
  destruct (extractKeywords query) as [|e qk] eqn:Eq; [congruence|].
  simpl JsMap.size. simpl (_ =? _)%nat. cbv iota.
  intros H. apply sortByStart_In in H. apply in_map_iff in H.
  destruct H as [[k v] [Hx Hin]]. simpl in Hx.
  apply slice_incl in Hin. apply sort_In in Hin.
  apply computeScores_In in Hin.
  destruct Hin as [c [Hc [-> [-> Hpos]]]].
  exists c. split; [|split; assumption].
  rewrite <- Hx. apply ids_ok_lookup; [apply Hwf | exact Hc].
Qed.

(** In the fallback branch every entry is a stored chunk. *)
Lemma search_recent (s : State) (query : jsstring) (topK : Z)
      (x : option Chunk) :
  extractKeywords query = [] -> In x (search s query topK) ->
  exists c, x = Some c /\ In c (chunks s).
Proof.
  intros Hq. unfold search.
  destruct (negb (isIndexed s) || (List.length (chunks s) =? 0)%nat);
    [intros []|].
  rewrite Hq. simpl. intros H. apply in_map_iff in H.
  destruct H as [c [<- Hc]]. exists c. split; [reflexivity|].
  apply slice_from_incl in Hc. exact Hc.
Qed.

Lemma search_stored (s : State) (query : jsstring) (topK : Z)
      (x : option Chunk) :
  wf s -> In x (search s query topK) ->
  exists c, x = Some c /\ In c (chunks s).
Proof.
  intros Hwf H. destruct (extractKeywords query) as [|e qk] eqn:Eq.
  - apply (@search_recent s query topK x Eq H).
  - destruct (@search_ranked s query topK x Hwf) as [c [Hx [Hc _]]];
      [congruence | exact H | eauto].
Qed.

Lemma search_default_length (s : State) (query : jsstring) :
  (List.length (search s query TOP_K) <= 4)%nat.
Proof.
  unfold search, TOP_K.
  destruct (negb (isIndexed s) || (List.length (chunks s) =? 0)%nat);
    [simpl; lia|].
  destruct (JsMap.size (extractKeywords query) =? 0)%nat.
  - rewrite length_map, slice_from_last by lia. rewrite length_skipn. lia.
  - rewrite sortByStart_length, length_map.
    pose proof (@slice_prefix_length _
                  (sort byScoreDesc
                        (computeScores s (extractKeywords query))) 4).
    lia.
Qed.

(** *** The assembly loop *)

Lemma separator_length (context : jsstring) : strlen (separator context) <= 2.
Proof. destruct context; vm_compute; discriminate. Qed.

Lemma Ok_inj {A} (a b : A) : Ok a = Ok b -> a = b.
Proof. intros H. injection H. auto. Qed.

Lemma assemble_cons (c : Chunk) (rest : list (option Chunk))
      (context : jsstring) :
  assemble context (Some c :: rest)
  = if MAX_CONTEXT_CHARS <? strlen context + strlen (text c)
    then (if 50 <? MAX_CONTEXT_CHARS - strlen context - 10
          then Ok (truncated context c
                             (MAX_CONTEXT_CHARS - strlen context - 10))
          else Ok context)
    else assemble (context ++ separator context ++ text c) rest.
Proof. reflexivity. Qed.

Lemma assemble_bound (cs : list (option Chunk)) :
  forall context r,
    strlen context <= MAX_CONTEXT_CHARS + 2 ->
    assemble context cs = Ok r ->
    strlen r <= MAX_CONTEXT_CHARS + 2.
Proof.
  induction cs as [|[c|] cs IH]; intros context r Hctx;
    [cbn [assemble] | rewrite assemble_cons | cbn [assemble]].
  - intros H. apply Ok_inj in H. subst r. exact Hctx.
  - destruct (MAX_CONTEXT_CHARS <? strlen context + strlen (text c)) eqn:E.
    + destruct (50 <? MAX_CONTEXT_CHARS - strlen context - 10) eqn:E2.
      * intros H. apply Ok_inj in H. subst r. apply Z.ltb_lt in E2.
        unfold truncated. rewrite !strlen_app.
        assert (Hs : strlen (substring (text c) 0
                               (MAX_CONTEXT_CHARS - strlen context - 10))
                     <= MAX_CONTEXT_CHARS - strlen context - 10 - 0)
          by (apply substring_length_le; lia).
        change (strlen (nl :: str "..." ++ [nl])) with 5.
        change (strlen (str "...")) with 3. lia.
      * intros H. apply Ok_inj in H. subst r. exact Hctx.
    + apply Z.ltb_ge in E. apply IH.
      rewrite !strlen_app. pose proof (separator_length context). lia.
  - discriminate.
Qed.

Lemma assemble_defined (cs : list (option Chunk)) :
  (forall x, In x cs -> x <> None) ->
  forall context, exists r, assemble context cs = Ok r.
Proof.
  induction cs as [|[c|] cs IH]; intros Hall context;
    [cbn [assemble] | rewrite assemble_cons | cbn [assemble]].
  - eauto.
  - destruct (MAX_CONTEXT_CHARS <? strlen context + strlen (text c)).
    + destruct (50 <? MAX_CONTEXT_CHARS - strlen context - 10); eauto.
    + apply IH. intros x Hx. apply Hall. right. exact Hx.
  - exfalso. apply (Hall None); [left|]; reflexivity.
Qed.

Lemma assemble_appendWhole (pre : list Chunk) (rest : list (option Chunk)) :
  forall context context',
    appendWhole context pre = Some context' ->
    assemble context (map Some pre ++ rest) = assemble context' rest.
Proof.
  induction pre as [|c pre IH]; intros context context';
    cbn [appendWhole map app].
  - intros H. injection H as <-. reflexivity.
  - rewrite assemble_cons.
    destruct (MAX_CONTEXT_CHARS <? strlen context + strlen (text c));
      [discriminate|].
    apply IH.
Qed.

Lemma appendWhole_length (bound : Z) (pre : list Chunk) :
  Forall (fun c => strlen (text c) <= bound) pre ->
  forall context context',
    appendWhole context pre = Some context' ->
    strlen context'
    <= strlen context + Z.of_nat (List.length pre) * (bound + 2).
Proof.
  induction pre as [|c pre IH]; intros Hall context context';
    cbn [appendWhole].
  - intros H. injection H as <-. simpl. lia.
  - destruct (MAX_CONTEXT_CHARS <? strlen context + strlen (text c));
      [discriminate|].
    inversion Hall as [|? ? Hc Hpre]; subst.
    intros H. apply (IH Hpre) in H.
    rewrite !strlen_app in H. pose proof (separator_length context).
    assert (Hlen : Z.of_nat (List.length (c :: pre))
                   = 1 + Z.of_nat (List.length pre))
      by (simpl List.length; lia).
    rewrite Hlen. nia.
Qed.

(** *** One chunk holds the query's keywords *)

Lemma only_holder (s : State) (c : Chunk) (w : jsstring) :
  wf s -> In c (chunks s) -> kw_has (keywords c) w = true ->
  (forall c', In c' (chunks s) -> kw_has (keywords c') w = true -> c' = c) ->
  dfOr1 s w = 1%nat.
Proof.
  intros Hwf Hin Hc Huniq. rewrite dfOr1_docFreq, (wf_docFreq Hwf).
  unfold holders.
  rewrite (filter_only (fun c' => kw_has (keywords c') w) (chunks s) c
             (ids_ok_NoDup _ (wf_ids Hwf)) Hin Hc Huniq).
  reflexivity.
Qed.

Lemma chunkScore_only_holder (s : State) (qk : KeywordMap) (c : Chunk) :
  wf s -> (2 <= List.length (chunks s))%nat -> In c (chunks s) ->
  positive_counts qk ->
  (exists w, kw_has qk w = true /\ kw_has (keywords c) w = true) ->
  (forall c' w, In c' (chunks s) -> kw_has qk w = true ->
                kw_has (keywords c') w = true -> c' = c) ->
  (0 < chunkScore s qk c)%R.
Proof.
  intros Hwf HN Hin Hqk [w [Hqw Hcw]] Huniq. unfold chunkScore.
  apply Rmult_lt_0_compat; [|apply recencyBoost_pos; lia].
  assert (Hc_ok : positive_counts (keywords c)).
  { pose proof (wf_chunks Hwf) as Hall. rewrite Forall_forall in Hall.
    destruct (Hall c Hin) as [-> _]. apply extractKeywords_ok. }
  apply (fold_addTerm_positive s (List.length (chunks s)) c qk).
  - intros [w' n] tf He Hget. simpl in *.
    assert (Hqw' : kw_has qk w' = true)
      by (apply (JsMapFacts.in_has str_eqb str_eqb_eq qk w' n He)).
    assert (Hcw' : kw_has (keywords c) w' = true)
      by (apply kw_has_get; eauto).
    rewrite (only_holder s c w' Hwf Hin Hcw').
    + apply Rmult_lt_0_compat; [apply Rmult_lt_0_compat|].
      * apply lt_0_INR. pose proof (kw_get_positive _ _ _ Hc_ok Hget). lia.
      * apply idf_rare. exact HN.
      * apply lt_0_INR. unfold positive_counts in Hqk.
        rewrite Forall_forall in Hqk. apply (Hqk _ He).
    + intros c' Hc' Hh. apply (Huniq c' w' Hc' Hqw' Hh).
  - destruct (JsMapFacts.has_in str_eqb str_eqb_eq qk w Hqw) as [n Hn].
    exists (w, n). split; [exact Hn|]. simpl.
    apply kw_has_get in Hcw. destruct Hcw as [tf ->]. discriminate.
Qed.

Lemma computeScores_single (s : State) (qk : KeywordMap) (c : Chunk) :
  NoDup (chunks s) -> In c (chunks s) -> (0 < chunkScore s qk c)%R ->
  (forall c', In c' (chunks s) -> c' <> c -> ~ (0 < chunkScore s qk c')%R) ->
  computeScores s qk = [(id c, chunkScore s qk c)].
Proof.
  intros Hnd Hin Hpos Hothers. unfold computeScores.
  destruct (in_split _ _ Hin) as [l1 [l2 Hsplit]].
  rewrite Hsplit in Hnd, Hothers |- *.
  apply NoDup_remove_2 in Hnd.
  rewrite fold_left_app. simpl.
  rewrite (computeScores_skip s qk l1 []).
  - unfold recordScore at 2.
    destruct (Rlt_dec 0 (chunkScore s qk c)) as [_|Hn]; [|contradiction].
    simpl. apply computeScores_skip.
    intros c' Hc'. apply Hothers.
    + apply in_or_app. right. right. exact Hc'.
    + intros ->. apply Hnd. apply in_or_app. right. exact Hc'.
  - intros c' Hc'. apply Hothers.
    + apply in_or_app. left. exact Hc'.
    + intros ->. apply Hnd. apply in_or_app. left. exact Hc'.
Qed.

Lemma search_single (s : State) (query : jsstring) (topK : Z) (c : Chunk)
      (v : R) :
  isIndexed s = true -> chunks s <> [] -> extractKeywords query <> [] ->
  1 <= topK -> nth_error (chunks s) (id c) = Some c ->
  computeScores s (extractKeywords query) = [(id c, v)] ->
  search s query topK = [Some c].
Proof.
  intros Hon Hne Hq Hk Hnth Hscores. unfold search. rewrite Hon, Hscores.
  destruct (chunks s) as [|c0 cs] eqn:E; [congruence|].
  destruct (extractKeywords query) as [|e qk]; [congruence|].
  simpl negb. simpl orb. cbv iota. simpl JsMap.size.
  simpl (_ =? 0)%nat. cbv iota.
  rewrite slice_prefix by lia.
  destruct (Z.to_nat topK) as [|n] eqn:En; [lia|].
  simpl. rewrite Hnth, firstn_nil. reflexivity.
Qed.

(** With [topK = 0] the ranking branch keeps nothing. *)
Lemma search_ranked_zero (s : State) (query : jsstring) :
  extractKeywords query <> [] -> search s query 0 = [].
Proof.
  intros Hq. unfold search.
  destruct (negb (isIndexed s) || (List.length (chunks s) =? 0)%nat);
    [reflexivity|].
  destruct (extractKeywords query) as [|e qk]; [congruence|].
  simpl JsMap.size. simpl (_ =? 0)%nat. cbv iota.
  rewrite slice_prefix by lia. reflexivity.
Qed.

(** *** One chunk in all *)

(** With a single stored chunk every term has [N / df = 1]. *)
Lemma single_chunk_score_zero (s : State) (qk : KeywordMap) (c : Chunk) :
  wf s -> chunks s = [c] -> chunkScore s qk c = 0%R.
Proof.
  intros Hwf Hc. unfold chunkScore. rewrite Hc. simpl List.length.
  assert (H : forall acc, acc = 0%R ->
                          fold_left (addTerm s 1 c) qk acc = 0%R).
  { induction qk as [|[w n] qk IH]; intros acc Hacc; simpl; [exact Hacc|].
    apply IH. unfold addTerm. simpl.
    destruct (kw_get (keywords c) w) as [tf|] eqn:G; [|exact Hacc].
    assert (Hdf : dfOr1 s w = 1%nat).
    { rewrite dfOr1_docFreq, (wf_docFreq Hwf), Hc, holders_cons.
      assert (Hh : kw_has (keywords c) w = true)
        by (apply kw_has_get; eauto).
      rewrite Hh. reflexivity. }
    rewrite Hdf, idf_only, Hacc. ring. }
  rewrite (H 0%R eq_refl). apply Rmult_0_l.
Qed.

Lemma single_chunk_search_empty (s : State) (query : jsstring) (topK : Z)
      (c : Chunk) :
  wf s -> chunks s = [c] -> extractKeywords query <> [] ->
  search s query topK = [].
Proof.
  intros Hwf Hc Hq.
  destruct (search s query topK) as [|x l] eqn:E; [reflexivity|].
  exfalso.
  destruct (search_ranked s query topK x Hwf Hq) as [c' [_ [Hin Hpos]]].
  - rewrite E. left. reflexivity.
  - rewrite Hc in Hin. destruct Hin as [<-|[]].
    rewrite (single_chunk_score_zero s _ c Hwf Hc) in Hpos. lra.
Qed.

End SearchFacts.

(* ================================================================= *)
(** ** Properties of the engine *)

Module Properties.
Import JsString JsFacts ChatIndexer Invariants Samples.
Import IndexerFacts SearchFacts.

Local Open Scope Z_scope.

Lemma reachable_after_index (messages : list Message) :
  reachable (snd (indexConversation (Some messages) init)).
Proof. apply reach_index, reach_init. Qed.

(** *** Empty input *)

(** C2, as the code has it: with absent or empty [messages] the call
    returns 0 and hands back the engine state untouched, so the indexed
    flag afterwards is whatever it was before. *)
Theorem indexConversation_empty_unchanged (s : State) :
  indexConversation None s = (O, s)
  /\ indexConversation (Some []) s = (O, s).
Proof. split; reflexivity. Qed.

(** C2 fails as stated: after a conversation has been indexed, a call with
    an empty or absent sequence returns 0 and the flag is still set. *)
Lemma empty_messages_keep_index :
  isIndexed short_state = true
  /\ fst (indexConversation (Some []) short_state) = O
  /\ isIndexed (snd (indexConversation (Some []) short_state)) = true
  /\ fst (indexConversation None short_state) = O
  /\ isIndexed (snd (indexConversation None short_state)) = true.
Proof. repeat split; reflexivity. Qed.

(** *** Idempotence *)

(** C8: a second call with the same messages returns the same count and
    leaves the same state, chunk for chunk, as the first. *)
Theorem indexConversation_idempotent
        (s : State) (messages : option (list Message)) :
  indexConversation messages (snd (indexConversation messages s))
  = indexConversation messages s.
Proof. destruct messages as [[|m ms]|]; reflexivity. Qed.

(** *** The inverted index *)

(** C10: after a rebuild the document frequency of a term is the length
    of its posting list, which counts the stored chunks whose keyword map
    has the term; the posting list is ascending; the two maps have the
    same keys; the stored chunks are pairwise distinct. *)
Theorem index_matches_chunks
        (s : State) (m : Message) (ms : list Message) (w : jsstring) :
  let s' := snd (indexConversation (Some (m :: ms)) s) in
  docFreq (documentFrequency s') w
  = List.length (postings (keywordIndex s') w)
  /\ List.length (postings (keywordIndex s') w)
     = List.length (filter (fun c => kw_has (keywords c) w) (chunks s'))
  /\ ascending (postings (keywordIndex s') w)
  /\ JsMap.keys (keywordIndex s') = JsMap.keys (documentFrequency s')
  /\ NoDup (chunks s').
Proof.
  intros s'.
  assert (Hwf : wf s') by (apply wf_rebuild).
  destruct Hwf as [Hok Hids Hp Hd Hk _].
  rewrite Hd, Hp. repeat split.
  - unfold holders. apply length_map.
  - apply holders_ascending. exact Hids.
  - exact Hk.
  - apply ids_ok_NoDup. exact Hids.
Qed.

(** *** The context budget *)

Lemma getContextForQuery_assemble (s : State) (query : jsstring) :
  getContextForQuery s query = assemble [] (search s query TOP_K).
Proof.
  unfold getContextForQuery. destruct (search s query TOP_K); reflexivity.
Qed.

Lemma search_no_holes (s : State) (query : jsstring) (topK : Z) :
  wf s -> forall x, In x (search s query topK) -> x <> None.
Proof.
  intros Hwf x Hx. destruct (search_stored _ _ _ _ Hwf Hx) as [c [-> _]].
  discriminate.
Qed.

(** C7: in every state of the engine the context comes back, and it is at
    most two code units longer than [MAX_CONTEXT_CHARS]: the separator that
    the budget test leaves out, less than the ellipsis it may end in. *)
Theorem context_length_bounded (s : State) (query : jsstring) :
  reachable s ->
  exists r, getContextForQuery s query = Ok r
            /\ strlen r <= MAX_CONTEXT_CHARS + 2.
Proof.
  intros Hr. apply reachable_wf in Hr.
  rewrite getContextForQuery_assemble.
  destruct (@assemble_defined (search s query TOP_K)
              (search_no_holes _ _ _ Hr) []) as [r Hres].
  exists r. split; [exact Hres|].
  apply (@assemble_bound (search s query TOP_K) [] r); [|exact Hres].
  vm_compute. discriminate.
Qed.

Lemma context_length_bounded_witness :
  reachable long_state
  /\ exists r, getContextForQuery long_state stop_query = Ok r
               /\ strlen r <= MAX_CONTEXT_CHARS + 2.
Proof.
  split.
  - apply reachable_after_index.
  - apply (@context_length_bounded long_state stop_query).
    apply reachable_after_index.
Defined.

(** *** Truncation *)

(** C4: when the next chunk does not fit, what comes back is the running
    context, the marker, the first [MAX_CONTEXT_CHARS - length - 10] code
    units of that chunk and an ellipsis; the chunks after it play no part.
    The running context [context] is what the chunks before it, all
    appended whole, have made. *)
Theorem context_truncates_overflowing_chunk
        (s : State) (query : jsstring) (pre : list Chunk) (c : Chunk)
        (rest : list (option Chunk)) (context : jsstring) :
  reachable s ->
  search s query TOP_K = map Some pre ++ Some c :: rest ->
  appendWhole [] pre = Some context ->
  MAX_CONTEXT_CHARS < strlen context + strlen (text c) ->
  let remaining := MAX_CONTEXT_CHARS - strlen context - 10 in
  getContextForQuery s query
  = Ok (context ++ (nl :: str "..." ++ [nl])
                ++ substring (text c) 0 remaining ++ str "...")
  /\ strlen (substring (text c) 0 remaining) = remaining.
Proof.
  intros Hr Hs Hpre Hover remaining. apply reachable_wf in Hr.
  assert (Hlen : (List.length pre <= 3)%nat).
  { pose proof (search_default_length s query) as H. rewrite Hs in H.
    rewrite length_app, length_map in H. simpl in H. lia. }
  assert (Hshort : Forall (fun c' => strlen (text c') <= MAX_TEXT) pre).
  { apply Forall_forall. intros c' Hc'.
    assert (Hin : In (Some c') (search s query TOP_K)).
    { rewrite Hs. apply in_or_app. left. apply in_map. exact Hc'. }
    destruct (search_stored _ _ _ _ Hr Hin) as [c0 [E Hc0]].
    injection E as <-.
    pose proof (wf_chunks Hr) as Hall. rewrite Forall_forall in Hall.
    apply Hall in Hc0. destruct Hc0 as [_ [[_ H] _]]. exact H. }
  pose proof (appendWhole_length _ _ Hshort _ _ Hpre) as Hctx.
  change (strlen []) with 0 in Hctx.
  unfold MAX_TEXT, CHUNK_SIZE in Hctx.
  assert (Hrem : 50 < remaining)
    by (subst remaining; unfold MAX_CONTEXT_CHARS; nia).
  split.
  - rewrite getContextForQuery_assemble, Hs.
    rewrite (assemble_appendWhole _ _ _ _ Hpre), assemble_cons.
    apply Z.ltb_lt in Hover, Hrem. fold remaining.
    rewrite Hover, Hrem. reflexivity.
  - apply substring_prefix_length. subst remaining. lia.
Qed.

Lemma context_truncates_overflowing_chunk_witness :
  search long_state stop_query TOP_K = map Some long_pre ++ [Some long_last]
  /\ getContextForQuery long_state stop_query
     = Ok (long_context ++ (nl :: str "..." ++ [nl])
             ++ substring (text long_last) 0
                  (MAX_CONTEXT_CHARS - strlen long_context - 10)
             ++ str "...")
  /\ strlen (substring (text long_last) 0
               (MAX_CONTEXT_CHARS - strlen long_context - 10))
     = MAX_CONTEXT_CHARS - strlen long_context - 10.
Proof.
  split; [vm_compute; reflexivity|].
  apply (@context_truncates_overflowing_chunk
           long_state stop_query long_pre long_last [] long_context).
  - apply reachable_after_index.
  - vm_compute. reflexivity.
  - vm_compute. reflexivity.
  - vm_compute. reflexivity.
Defined.

(** *** No failure *)

Lemma no_holes_map_Some {A} (l : list (option A)) :
  (forall x, In x l -> x <> None) -> exists l', l = map Some l'.
Proof.
  induction l as [|[a|] l IH]; intros H.
  - exists []. reflexivity.
  - destruct IH as [l' ->].
    + intros x Hx. apply H. right. exact Hx.
    + exists (a :: l'). reflexivity.
  - exfalso. apply (H None); [left|]; reflexivity.
Qed.

(** C9: in every state of the engine, whatever the messages, the query
    and [topK]: [indexConversation] and [clear] leave a state of the
    engine, [search] returns stored chunks and no hole, and
    [getContextForQuery] returns a string instead of failing on a hole;
    an unindexed engine answers with the empty result. *)
Theorem operations_complete
        (s : State) (messages : option (list Message)) (query : jsstring)
        (topK : Z) :
  reachable s ->
  reachable (snd (indexConversation messages s))
  /\ (exists cs, search s query topK = map Some cs /\ incl cs (chunks s))
  /\ (exists r, getContextForQuery s query = Ok r)
  /\ reachable (clear s)
  /\ (isIndexed s = false ->
      search s query topK = [] /\ getContextForQuery s query = Ok []).
Proof.
  intros Hr. pose proof (reachable_wf _ Hr) as Hwf.
  split; [apply reach_index; exact Hr|].
  split.
  { destruct (no_holes_map_Some _ (search_no_holes s query topK Hwf))
      as [cs Hcs].
    exists cs. split; [exact Hcs|].
    intros c Hc.
    assert (Hin : In (Some c) (search s query topK))
      by (rewrite Hcs; apply in_map; exact Hc).
    destruct (search_stored _ _ _ _ Hwf Hin) as [c0 [E Hc0]].
    injection E as <-. exact Hc0. }
  split.
  { rewrite getContextForQuery_assemble.
    apply assemble_defined. apply search_no_holes. exact Hwf. }
  split; [apply reach_clear; exact Hr|].
  intros Hoff. unfold getContextForQuery, search. rewrite Hoff.
  split; reflexivity.
Qed.

Lemma operations_complete_witness :
  reachable three_state
  /\ (exists cs, search three_state stop_query 2 = map Some cs
                 /\ incl cs (chunks three_state))
  /\ (exists r, getContextForQuery three_state stop_query = Ok r).
Proof.
  pose proof (@operations_complete three_state None stop_query 2
                (reachable_after_index three_talk)) as H.
  split; [apply reachable_after_index|].
  split; [apply H | apply H].
Defined.

(** *** The fallback for queries without keywords *)

(** With a positive [topK] the fallback returns the last [topK] chunks,
    all of them when there are fewer, in stored order. *)
Lemma search_fallback_last (s : State) (query : jsstring) (topK : Z) :
  isIndexed s = true -> chunks s <> [] -> extractKeywords query = [] ->
  1 <= topK ->
  search s query topK
  = map Some (skipn (List.length (chunks s) - Z.to_nat topK) (chunks s)).
Proof.
  intros Hon Hne Hq Hk. unfold search. rewrite Hon, Hq.
  destruct (chunks s) as [|c cs] eqn:E; [congruence|].
  simpl negb. simpl orb. cbv iota. simpl JsMap.size.
  simpl (0 =? 0)%nat. cbv iota.
  rewrite slice_from_last by exact Hk. reflexivity.
Qed.

(** C6 at [topK = 0]: the query has no keyword, the engine holds three
    chunks, and the search returns all three where the last zero chunks
    are none. *)
Theorem search_fallback_topK_zero :
  extractKeywords stop_query = []
  /\ isIndexed three_state = true
  /\ List.length (chunks three_state) = 3%nat
  /\ search three_state stop_query 0 = map Some (chunks three_state).
Proof. repeat split; vm_compute; reflexivity. Qed.

(** *** The returned count *)




(** *** Consecutive chunks *)

(** C5, as the code has it: of two chunks stored one after the other the
    second starts strictly later, and it starts no later than the end of
    the first unless a window that started strictly between the two was
    dropped for trimming to at most 30 code units. *)
Theorem stored_chunks_linked
        (s : State) (m : Message) (ms : list Message) (i : nat)
        (c c' : Chunk) :
  let T := conversationText (m :: ms) in
  let cs := chunks (snd (indexConversation (Some (m :: ms)) s)) in
  nth_error cs i = Some c ->
  nth_error cs (S i) = Some c' ->
  start c < start c'
  /\ (start c' <= end_ c
      \/ exists st, start c < st < start c' /\ dropped T st).
Proof.
  intros T cs Hc Hc'. subst cs. cbn [indexConversation snd chunks] in *.
  apply (createChunks_linked T i c c' Hc Hc').
Qed.

Lemma stored_chunks_linked_witness :
  nth_error (chunks three_state) 0 = Some three_first
  /\ nth_error (chunks three_state) 1 = Some three_second
  /\ start three_first < start three_second
  /\ (start three_second <= end_ three_first
      \/ exists st, start three_first < st < start three_second
                    /\ dropped (conversationText three_talk) st).
Proof.
  assert (H0 : nth_error (chunks three_state) 0 = Some three_first)
    by reflexivity.
  assert (H1 : nth_error (chunks three_state) 1 = Some three_second)
    by reflexivity.
  split; [exact H0|]. split; [exact H1|].
  exact (@stored_chunks_linked init (user (str "tell me about rust please"))
           [] 0%nat three_first three_second H0 H1).
Defined.

(** C5 fails as stated: with 1452 blanks between two paragraphs the engine
    stores two chunks, and the second starts 500 code units after the
    first ends. *)
Lemma gap_chunks_do_not_overlap :
  chunks gap_state = [gap_first; gap_second]
  /\ end_ gap_first = 800
  /\ start gap_second = 1300
  /\ end_ gap_first < start gap_second.
Proof. repeat split; vm_compute; reflexivity. Qed.

(** *** Ranking *)

(** C1, as the code has it.  In an indexed state with at least two chunks
    and for [topK >= 1], a search whose keywords occur in one chunk only
    returns exactly that chunk, and its score is strictly positive.  For a
    query with at least one keyword and any [topK], a chunk that has none
    of the query's keywords scores 0 and is not in the result. *)
Theorem search_ranks_single_holder (s : State) (query : jsstring) :
  reachable s -> isIndexed s = true ->
  let qk := extractKeywords query in
  (forall topK c,
      (2 <= List.length (chunks s))%nat -> 1 <= topK ->
      In c (chunks s) ->
      (exists w, kw_has qk w = true /\ kw_has (keywords c) w = true) ->
      (forall c' w, In c' (chunks s) -> kw_has qk w = true ->
                    kw_has (keywords c') w = true -> c' = c) ->
      search s query topK = [Some c] /\ (0 < chunkScore s qk c)%R)
  /\ (forall topK c',
         qk <> [] ->
         (forall w, kw_has qk w = true -> kw_has (keywords c') w = false) ->
         chunkScore s qk c' = 0%R
         /\ ~ In (Some c') (search s query topK)).
Proof.
  intros Hr Hon qk. pose proof (reachable_wf _ Hr) as Hwf. split.
  - intros topK c HN Hk Hin Hex Huniq.
    assert (Hpos : (0 < chunkScore s qk c)%R).
    { apply chunkScore_only_holder; try assumption.
      apply extractKeywords_ok. }
    split; [|exact Hpos].
    apply (search_single s query topK c (chunkScore s qk c)); try assumption.
    + intros E. rewrite E in Hin. destruct Hin.
    + destruct Hex as [w [Hw _]]. intros E. fold qk in E. rewrite E in Hw.
      discriminate.
    + apply ids_ok_lookup; [apply Hwf | exact Hin].
    + apply computeScores_single; try assumption.
      * apply ids_ok_NoDup. apply Hwf.
      * intros c' Hc' Hne Hpos'.
        rewrite chunkScore_absent in Hpos'; [lra|].
        intros w Hw. destruct (kw_has (keywords c') w) eqn:E; [|reflexivity].
        exfalso. apply Hne. apply (Huniq c' w Hc' Hw E).
  - intros topK c' Hq Hnone.
    pose proof (chunkScore_absent s qk c' Hnone) as Hzero.
    split; [exact Hzero|].
    intros Hin.
    destruct (search_ranked s query topK (Some c') Hwf Hq Hin)
      as [c0 [E [_ Hpos]]].
    injection E as <-. fold qk in Hpos. lra.
Qed.

Lemma search_ranks_single_holder_witness :
  search gap_state gap_query TOP_K = [Some gap_second]
  /\ (0 < chunkScore gap_state (extractKeywords gap_query) gap_second)%R.
Proof.
  assert (Hcs : chunks gap_state = [gap_first; gap_second])
    by (vm_compute; reflexivity).
  assert (Hq : extractKeywords gap_query = [(gap_query, 1%nat)])
    by (vm_compute; reflexivity).
  apply (proj1 (@search_ranks_single_holder gap_state gap_query
                  (reachable_after_index gap_talk) eq_refl)).
  - rewrite Hcs. simpl. lia.
  - unfold TOP_K. lia.
  - rewrite Hcs. right. left. reflexivity.
  - exists gap_query. split; vm_compute; reflexivity.
  - intros c' w Hin Hw Hc'. rewrite Hcs in Hin. rewrite Hq in Hw.
    unfold kw_has, JsMap.has in Hw. simpl in Hw.
    destruct (str_eqb w gap_query) eqn:E; [|discriminate].
    apply str_eqb_eq in E. subst w.
    destruct Hin as [<-|[<-|[]]]; [|reflexivity].
    vm_compute in Hc'. discriminate.
Defined.

(** C1 fails as stated: the engine holds one chunk, the query's only
    keyword occurs in it, and the search returns nothing because the
    chunk's score is 0.  With two chunks and [topK = 0] the one chunk
    that has the keyword is not returned either. *)
Lemma single_chunk_never_ranked :
  isIndexed short_state = true
  /\ chunks short_state = [short_chunk]
  /\ extractKeywords rust_query = [(rust_query, 1%nat)]
  /\ kw_has (keywords short_chunk) rust_query = true
  /\ chunkScore short_state (extractKeywords rust_query) short_chunk = 0%R
  /\ search short_state rust_query TOP_K = []
  /\ search gap_state gap_query 0 = [].
Proof.
  assert (Hzero : search gap_state gap_query 0 = [])
    by (apply search_ranked_zero; vm_compute; discriminate).
  assert (Hwf : wf short_state)
    by (apply reachable_wf, reachable_after_index).
  assert (Hcs : chunks short_state = [short_chunk])
    by (vm_compute; reflexivity).
  split; [reflexivity|]. split; [exact Hcs|].
  split; [vm_compute; reflexivity|]. split; [vm_compute; reflexivity|].
  split; [apply single_chunk_score_zero; assumption|].
  split; [|exact Hzero].
  apply (single_chunk_search_empty short_state rust_query TOP_K
           short_chunk Hwf Hcs).
  vm_compute. discriminate.
Qed.

End Properties.

(* ================================================================= *)
(** ** Further properties: the chunker *)

Module ChunkerProperties.
Import JsString JsFacts ChatIndexer Invariants Samples Vocabulary MoreSamples.
Import IndexerFacts SearchFacts.

Local Open Scope Z_scope.

Lemma starts_with_length (p s : jsstring) :
  starts_with p s = true -> strlen p <= strlen s.
Proof.
  revert s. induction p as [|x p IH]; intros s H.
  - rewrite strlen_nil. apply strlen_nonneg.
  - destruct s as [|y s]; [discriminate|]. simpl in H.
    apply andb_true_iff in H. destruct H as [_ H]. apply IH in H.
    rewrite !strlen_cons. lia.
Qed.

(** A position found by the scan leaves room for the whole pattern. *)
Lemma lastIndexOf_scan_fits (p s : jsstring) (from : Z) :
  forall i best,
    lastIndexOf_scan p s i from best = best
    \/ lastIndexOf_scan p s i from best + strlen p <= i + strlen s.
Proof.
  induction s as [|c s IH]; intros i best; simpl.
  - destruct (starts_with p [] && (i <=? from)) eqn:E; [|left; reflexivity].
    apply andb_true_iff in E. destruct E as [E _].
    apply starts_with_length in E. right. lia.
  - rewrite strlen_cons.
    set (best' := if starts_with p (c :: s) && (i <=? from) then i else best).
    destruct (IH (i + 1) best') as [H|H]; [|right; lia].
    rewrite H. subst best'.
    destruct (starts_with p (c :: s) && (i <=? from)) eqn:E;
      [|left; reflexivity].
    apply andb_true_iff in E. destruct E as [E _].
    apply starts_with_length in E. rewrite strlen_cons in E. right. lia.
Qed.

Lemma lastIndexOf_fits (s p : jsstring) (from : Z) :
  lastIndexOf s p from = -1
  \/ lastIndexOf s p from + strlen p <= strlen s.
Proof.
  unfold lastIndexOf.
  destruct (lastIndexOf_scan_fits p s (Z.max 0 from) 0 (-1)) as [H|H];
    [left; exact H | right; lia].
Qed.

Lemma tryBreak_fits (content : jsstring) (e searchStart best : Z)
      (bp : jsstring) :
  0 <= searchStart -> best <= strlen content ->
  tryBreak content e searchStart best bp <= strlen content.
Proof.
  intros Hs Hbest. unfold tryBreak.
  destruct ((searchStart <? lastIndexOf content bp e)
            && (best <? lastIndexOf content bp e)) eqn:E; [|exact Hbest].
  apply andb_true_iff in E. destruct E as [E _]. apply Z.ltb_lt in E.
  destruct (lastIndexOf_fits content bp e) as [H|H]; [lia|].
  destruct (str_eqb bp (str ". ")) eqn:Eb; [|exact H].
  apply str_eqb_eq in Eb. subst bp.
  change (strlen (str ". ")) with 2 in H. exact H.
Qed.

Lemma chunkEnd_within (content : jsstring) (st : Z) :
  0 <= st < strlen content -> chunkEnd content st <= strlen content.
Proof.
  intros [H0 Hlt]. unfold chunkEnd, CHUNK_SIZE.
  set (e := Z.min (st + 800) (strlen content)).
  destruct (e <? strlen content); [|subst e; lia].
  set (b := fold_left _ breakPoints (-1)).
  assert (Hb : b <= strlen content).
  { subst b. apply fold_left_inv; [|lia].
    intros b bp _ Hle. apply tryBreak_fits; lia. }
  destruct (st <? b); [exact Hb | subst e; lia].
Qed.

Lemma pushChunk_cut (acc : list Chunk) (content : jsstring) (st : Z) :
  0 <= st < strlen content ->
  Forall (cut_from content) acc ->
  Forall (cut_from content)
         (pushChunk acc (trim (substring content st (chunkEnd content st)))
                    st (chunkEnd content st)).
Proof.
  intros Hst Hall.
  set (e := chunkEnd content st).
  set (t := trim (substring content st e)).
  destruct (pushChunk_cases acc t st e) as [[Hlen ->]|[_ ->]]; [|exact Hall].
  apply Forall_app. split; [exact Hall|].
  constructor; [|constructor].
  pose proof (chunkEnd_bounds content st Hst) as Hb.
  pose proof (chunkEnd_within content st Hst) as Hw.
  pose proof (trim_length (substring content st e)) as Ht.
  fold e in Hb, Hw. fold t in Ht. unfold CHUNK_SIZE in Hb.
  assert (Hs : strlen (substring content st e) <= e - st)
    by (apply substring_length_le; lia).
  unfold cut_from, CHUNK_SIZE. simpl. repeat split; try reflexivity; lia.
Qed.

Lemma createChunks_cut (content : jsstring) :
  Forall (cut_from content) (createChunks content).
Proof.
  unfold createChunks.
  destruct (createChunks_loop_inv content
              (fun _ acc => Forall (cut_from content) acc))
    with (fuel := maxIterations) (st := 0) (acc := @nil Chunk)
    as [st' H].
  - intros st acc Hinv Hst. apply pushChunk_cut; assumption.
  - lia.
  - constructor.
  - exact H.
Qed.

(** X1: every chunk a rebuild stores is the trimmed slice
    [start .. end) of the transcript, with [0 <= start < end <= length],
    a slice of at most 815 code units, a text of more than 30, and the
    keywords of that text. *)
Theorem stored_chunk_is_transcript_slice
        (s : State) (m : Message) (ms : list Message) (c : Chunk) :
  let T := conversationText (m :: ms) in
  In c (chunks (snd (indexConversation (Some (m :: ms)) s))) ->
  0 <= start c < end_ c
  /\ end_ c <= strlen T
  /\ end_ c - start c <= 815
  /\ text c = trim (substring T (start c) (end_ c))
  /\ 30 < strlen (text c) <= end_ c - start c
  /\ keywords c = extractKeywords (text c).
Proof.
  intros T Hin. cbn [indexConversation snd chunks] in Hin. fold T in Hin.
  pose proof (createChunks_cut T) as Hall. rewrite Forall_forall in Hall.
  apply (Hall c Hin).
Qed.

Lemma stored_chunk_is_transcript_slice_witness :
  In three_second (chunks three_state)
  /\ 0 <= start three_second < end_ three_second
  /\ end_ three_second <= strlen (conversationText three_talk)
  /\ text three_second
     = trim (substring (conversationText three_talk)
                       (start three_second) (end_ three_second)).
Proof.
  assert (Hin : In three_second (chunks three_state))
    by (right; left; reflexivity).
  pose proof (@stored_chunk_is_transcript_slice
                init (user (str "tell me about rust please")) []
                three_second Hin) as H.
  split; [exact Hin|]. split; [apply H|]. split; apply H.
Defined.

(** X2: in every state of the engine a stored chunk sits at the index its
    id names, and the chunk at index [i] has id [i]: [this.chunks[id]] is
    the chunk the id came from. *)
Theorem chunk_id_is_its_index (s : State) (c : Chunk) (i : nat) :
  reachable s ->
  (In c (chunks s) -> nth_error (chunks s) (id c) = Some c)
  /\ (nth_error (chunks s) i = Some c -> id c = i).
Proof.
  intros Hr. apply reachable_wf in Hr. split.
  - apply ids_ok_lookup. apply Hr.
  - apply ids_ok_nth. apply Hr.
Qed.

Lemma chunk_id_is_its_index_witness :
  nth_error (chunks three_state) (id three_second) = Some three_second
  /\ id three_second = 1%nat.
Proof.
  pose proof (@chunk_id_is_its_index three_state three_second 1
                (Properties.reachable_after_index three_talk)) as [H1 H2].
  split.
  - apply H1. right. left. reflexivity.
  - apply H2. reflexivity.
Defined.

Lemma createChunks_loop_length (content : jsstring) (fuel : nat) :
  forall st acc,
    (List.length (createChunks_loop fuel content st acc)
     <= List.length acc + fuel)%nat.
Proof.
  induction fuel as [|fuel IH]; intros st acc; simpl; [lia|].
  destruct (st <? strlen content); [|lia].
  set (e := chunkEnd content st).
  set (t := trim (substring content st e)).
  assert (Hpush : (List.length (pushChunk acc t st e)
                   <= S (List.length acc))%nat).
  { destruct (pushChunk_cases acc t st e) as [[_ ->]|[_ ->]].
    - rewrite length_app. simpl. lia.
    - lia. }
  destruct (strlen content - 30 <=? _); [lia|].
  specialize (IH (Z.max (st + 1) (e - CHUNK_OVERLAP)) (pushChunk acc t st e)).
  lia.
Qed.

Lemma createChunks_capped (content : jsstring) :
  Z.of_nat (List.length (createChunks content)) <= 5000.
Proof.
  pose proof (createChunks_loop_length content maxIterations 0 []) as H.
  fold (createChunks content) in H.
  assert (Hmax : Z.of_nat maxIterations = 5000).
  { unfold maxIterations. rewrite Z2Nat.id; lia. }
  simpl List.length in H. lia.
Qed.

(** X3: in every state of the engine at most 5000 chunks are stored, the
    iteration cap of [createChunks], and no call returns a larger count. *)
Theorem chunk_count_capped (s : State) (messages : option (list Message)) :
  reachable s ->
  Z.of_nat (List.length (chunks s)) <= 5000
  /\ Z.of_nat (fst (indexConversation messages s)) <= 5000.
Proof.
  intros Hr.
  assert (Hs : Z.of_nat (List.length (chunks s)) <= 5000).
  { induction Hr as [|s0 msgs _ IH|s0 _ _]; simpl; try lia.
    destruct msgs as [[|m ms]|]; cbn [indexConversation snd chunks];
      try exact IH.
    apply createChunks_capped. }
  split; [exact Hs|].
  destruct messages as [[|m ms]|]; cbn [indexConversation fst]; try lia.
  apply createChunks_capped.
Qed.

Lemma chunk_count_capped_witness :
  Z.of_nat (List.length (chunks gap_state)) <= 5000
  /\ Z.of_nat (fst (indexConversation (Some sparse_talk) gap_state)) <= 5000.
Proof.
  apply (@chunk_count_capped gap_state (Some sparse_talk)
           (Properties.reachable_after_index gap_talk)).
Defined.

(** *** The tail of a short transcript *)

Lemma chunkEnd_tail (content : jsstring) (st : Z) :
  strlen content <= st + CHUNK_SIZE -> chunkEnd content st = strlen content.
Proof.
  intros H. unfold chunkEnd.
  replace (Z.min (st + CHUNK_SIZE) (strlen content)) with (strlen content)
    by lia.
  rewrite Z.ltb_irrefl. reflexivity.
Qed.

Lemma maxIterations_succ : maxIterations = S (Z.to_nat 4999).
Proof. vm_compute. reflexivity. Qed.

Lemma pushChunk_kept (acc : list Chunk) (t : jsstring) (st e : Z) :
  30 < strlen t ->
  exists c, In c (pushChunk acc t st e) /\ start c = st /\ end_ c = e.
Proof.
  intros H. destruct (pushChunk_cases acc t st e) as [[_ ->]|[Hle _]]; [|lia].
  eexists. split; [apply in_or_app; right; left; reflexivity|].
  split; reflexivity.
Qed.

(** From a start in the last 150 code units on, the loop moves one code
    unit at a time and visits every start before [length - 30]. *)
Lemma tail_loop_visits (content : jsstring) (i : Z) :
  strlen content <= CHUNK_SIZE ->
  i < strlen content - 30 ->
  30 < strlen (trim (substring content i (strlen content))) ->
  forall fuel st acc,
    0 <= st -> strlen content - CHUNK_OVERLAP <= st <= i ->
    (Z.to_nat (i - st) < fuel)%nat ->
    exists c, In c (createChunks_loop fuel content st acc)
              /\ start c = i /\ end_ c = strlen content.
Proof.
  intros Hshort Hi Hkept.
  induction fuel as [|fuel IH]; intros st acc H0 Hst Hfuel; [lia|].
  cbn [createChunks_loop].
  assert (Hlt : (st <? strlen content) = true) by (apply Z.ltb_lt; lia).
  rewrite Hlt.
  rewrite (chunkEnd_tail content st) by (unfold CHUNK_SIZE in *; lia).
  set (t := trim (substring content st (strlen content))).
  replace (Z.max (st + 1) (strlen content - CHUNK_OVERLAP)) with (st + 1)
    by lia.
  destruct (Z.eq_dec st i) as [->|Hne].
  - destruct (pushChunk_kept acc t i (strlen content) Hkept)
      as [c [Hin [Hs He]]].
    exists c. split; [|split; assumption].
    destruct (strlen content - 30 <=? i + 1); [exact Hin|].
    destruct (createChunks_loop_extends content fuel (i + 1)
                (pushChunk acc t i (strlen content))) as [ext ->].
    apply in_or_app. left. exact Hin.
  - assert (Hgo : (strlen content - 30 <=? st + 1) = false)
      by (apply Z.leb_gt; lia).
    rewrite Hgo. apply IH; lia.
Qed.

(** X4: in a transcript of at most 800 code units, every position [i] in
    the last 150 code units but before the last 30 (and position 0)
    starts a stored chunk that runs to the end of the transcript, provided
    that suffix trims to more than 30 code units: the tail is stored once
    per position, one code unit apart. *)
Theorem short_transcript_tail_chunks (content : jsstring) (i : Z) :
  strlen content <= CHUNK_SIZE ->
  i = 0 \/ Z.max 1 (strlen content - CHUNK_OVERLAP) <= i ->
  i < Z.max 1 (strlen content - 30) ->
  30 < strlen (trim (substring content i (strlen content))) ->
  exists c, In c (createChunks content)
            /\ start c = i /\ end_ c = strlen content.
Proof.
  intros Hshort Hrange Hi Hkept.
  assert (Hlen : 30 < strlen content).
  { pose proof (trim_length (substring content i (strlen content))) as H1.
    assert (H2 : strlen (substring content i (strlen content))
                 <= strlen content).
    { unfold substring, strlen. rewrite length_firstn, length_skipn. lia. }
    lia. }
  unfold createChunks. rewrite maxIterations_succ.
  cbn [createChunks_loop].
  assert (Hlt : (0 <? strlen content) = true) by (apply Z.ltb_lt; lia).
  rewrite Hlt.
  rewrite (chunkEnd_tail content 0) by lia.
  set (t := trim (substring content 0 (strlen content))).
  set (st' := Z.max (0 + 1) (strlen content - CHUNK_OVERLAP)).
  destruct Hrange as [->|Hrange].
  - destruct (pushChunk_kept [] t 0 (strlen content) Hkept)
      as [c [Hin [Hs He]]].
    exists c. split; [|split; assumption].
    destruct (strlen content - 30 <=? st'); [exact Hin|].
    destruct (createChunks_loop_extends content (Z.to_nat 4999) st'
                (pushChunk [] t 0 (strlen content))) as [ext ->].
    apply in_or_app. left. exact Hin.
  - assert (Hgo : (strlen content - 30 <=? st') = false)
      by (apply Z.leb_gt; subst st'; lia).
    rewrite Hgo.
    apply tail_loop_visits; try assumption; subst st';
      unfold CHUNK_OVERLAP in *; lia.
Qed.

Lemma short_transcript_tail_chunks_witness :
  exists c, In c (chunks three_state)
            /\ start c = 2 /\ end_ c = strlen (conversationText three_talk).
Proof.
  apply (@short_transcript_tail_chunks (conversationText three_talk) 2).
  - vm_compute. discriminate.
  - right. vm_compute. discriminate.
  - vm_compute. reflexivity.
  - vm_compute. reflexivity.
Defined.

End ChunkerProperties.

(* ================================================================= *)
(** ** Further properties: keywords and the inverted index *)

Module KeywordProperties.
Import JsString JsFacts ChatIndexer Invariants Samples Vocabulary MoreSamples.
Import IndexerFacts SearchFacts.

Local Open Scope Z_scope.

(** *** What a keyword looks like *)

Lemma replace_noise_class (c : ascii) :
  is_alnum (replace_noise c) || is_space (replace_noise c) = true.
Proof.
  unfold replace_noise, is_alnum.
  destruct (is_lower c || is_digit c || is_space c) eqn:E.
  - rewrite <- orb_assoc in E. rewrite <- orb_assoc. exact E.
  - vm_compute. reflexivity.
Qed.

Lemma split_ws_loop_clean (s : jsstring) :
  (forall c, In c s -> is_alnum c || is_space c = true) ->
  forall skipping cur w,
    Forall clean cur ->
    In w (split_ws_loop skipping cur s) -> Forall clean w.
Proof.
  induction s as [|c s IH]; intros Hs skipping cur w Hcur; simpl.
  - intros [<-|[]]. apply Forall_rev. exact Hcur.
  - assert (Hs' : forall c', In c' s -> is_alnum c' || is_space c' = true).
    { intros c' Hc'. apply Hs. right. exact Hc'. }
    destruct (is_space c) eqn:E.
    + destruct skipping.
      * apply (IH Hs' true [] w). constructor.
      * intros [<-|H]; [apply Forall_rev; exact Hcur|].
        apply (IH Hs' true [] w); [constructor | exact H].
    + apply (IH Hs' false (c :: cur) w). constructor; [|exact Hcur].
      split; [exact E|].
      pose proof (Hs c (or_introl eq_refl)) as Hc. rewrite E in Hc.
      rewrite orb_false_r in Hc. exact Hc.
Qed.

Lemma keptWords_shape (t w : jsstring) :
  In w (keptWords t) -> keep_word w = true /\ Forall clean w.
Proof.
  unfold keptWords. intros H. apply filter_In in H. destruct H as [H Hk].
  split; [exact Hk|].
  apply (split_ws_loop_clean (map replace_noise (toLowerCase t)))
    with (skipping := false) (cur := []); [|constructor | exact H].
  intros c Hc. apply in_map_iff in Hc. destruct Hc as [c0 [<- _]].
  apply replace_noise_class.
Qed.

(** *** Frequencies *)

Lemma frequency_tally (m : KeywordMap) (w' w : jsstring) :
  frequency (tally m w') w
  = (frequency m w + if str_eqb w w' then 1 else 0)%nat.
Proof.
  unfold frequency, tally, kw_get.
  destruct (str_eqb w w') eqn:E.
  - apply str_eqb_eq in E. subst w'.
    rewrite JsMapFacts.get_set_same by apply str_eqb_eq. reflexivity.
  - apply str_eqb_neq in E.
    rewrite JsMapFacts.get_set_other by (try apply str_eqb_eq; congruence).
    lia.
Qed.

Lemma frequency_fold (words : list jsstring) (w : jsstring) :
  forall m,
    frequency (fold_left tally words m) w
    = (frequency m w + occurrences w words)%nat.
Proof.
  unfold occurrences.
  induction words as [|w' words IH]; intros m; simpl; [lia|].
  rewrite IH, frequency_tally.
  destruct (str_eqb w w'); simpl; lia.
Qed.

Lemma occurrences_In (w : jsstring) (words : list jsstring) :
  (1 <= occurrences w words)%nat <-> In w words.
Proof.
  unfold occurrences. split.
  - intros H. destruct (filter (str_eqb w) words) as [|x l] eqn:E;
      [simpl in H; lia|].
    assert (Hx : In x (filter (str_eqb w) words))
      by (rewrite E; left; reflexivity).
    apply filter_In in Hx. destruct Hx as [Hx Heq].
    apply str_eqb_eq in Heq. subst x. exact Hx.
  - intros H.
    assert (Hf : In w (filter (str_eqb w) words)).
    { apply filter_In. split; [exact H | apply str_eqb_refl]. }
    destruct (filter (str_eqb w) words); [destruct Hf | simpl; lia].
Qed.

(** X6: the count [extractKeywords] stores for a word is the number of
    times the word occurs among the words it keeps; a word that does not
    occur has no entry. *)
Theorem keyword_frequency_counts_occurrences (t w : jsstring) :
  frequency (extractKeywords t) w = occurrences w (keptWords t)
  /\ (kw_has (extractKeywords t) w = true <-> In w (keptWords t)).
Proof.
  assert (Hfreq : frequency (extractKeywords t) w
                  = occurrences w (keptWords t)).
  { unfold extractKeywords. fold (keptWords t).
    rewrite frequency_fold. reflexivity. }
  split; [exact Hfreq|].
  rewrite <- occurrences_In, <- Hfreq. unfold frequency.
  destruct (extractKeywords_ok t) as [_ Hpos].
  split.
  - intros H. apply kw_has_get in H. destruct H as [n Hn]. rewrite Hn.
    apply (kw_get_positive _ _ _ Hpos Hn).
  - intros H. apply kw_has_get.
    destruct (kw_get (extractKeywords t) w) as [n|]; [eauto | lia].
Qed.

(** X5: every keyword [extractKeywords] returns has at least three code
    units, all of them lower-case letters or digits, is no stop word and
    is not a number; no keyword is listed twice and every count is at
    least one. *)
Theorem keywords_are_clean_words (t w : jsstring) :
  kw_has (extractKeywords t) w = true ->
  3 <= strlen w
  /\ forallb is_alnum w = true
  /\ is_stop_word w = false
  /\ all_digits w = false
  /\ (1 <= frequency (extractKeywords t) w)%nat
  /\ NoDup (JsMap.keys (extractKeywords t)).
Proof.
  intros H.
  destruct (extractKeywords_ok t) as [Hnd Hpos].
  assert (Hin : In w (keptWords t)).
  { assert (Hf : frequency (extractKeywords t) w
                 = occurrences w (keptWords t)).
    { unfold extractKeywords. fold (keptWords t).
      rewrite frequency_fold. reflexivity. }
    apply occurrences_In. rewrite <- Hf. unfold frequency.
    apply kw_has_get in H. destruct H as [n Hn]. rewrite Hn.
    apply (kw_get_positive _ _ _ Hpos Hn). }
  destruct (keptWords_shape t w Hin) as [Hkeep Hclean].
  unfold keep_word in Hkeep.
  apply andb_true_iff in Hkeep. destruct Hkeep as [Hkeep Hd].
  apply andb_true_iff in Hkeep. destruct Hkeep as [Hl Hs].
  apply Z.ltb_lt in Hl. apply negb_true_iff in Hs, Hd.
  split; [lia|]. split.
  { apply forallb_forall. intros c Hc. rewrite Forall_forall in Hclean.
    apply (Hclean c Hc). }
  split; [exact Hs|]. split; [exact Hd|]. split; [|exact Hnd].
  unfold frequency. apply kw_has_get in H. destruct H as [n Hn]. rewrite Hn.
  apply (kw_get_positive _ _ _ Hpos Hn).
Qed.

Lemma keywords_are_clean_words_witness :
  kw_has (extractKeywords mixed_text) rust_query = true
  /\ 3 <= strlen rust_query
  /\ forallb is_alnum rust_query = true
  /\ is_stop_word rust_query = false.
Proof.
  assert (H : kw_has (extractKeywords mixed_text) rust_query = true)
    by reflexivity.
  pose proof (@keywords_are_clean_words mixed_text rust_query H) as P.
  split; [exact H|]. split; [apply P|]. split; apply P.
Defined.

(** *** Case and punctuation *)




(** *** The keys of the index *)

Lemma indexKeyword_has (cid : nat) (ix : Index) (k : jsstring) (n : nat)
      (w : jsstring) :
  JsMap.has str_eqb (fst (indexKeyword cid ix (k, n))) w
  = JsMap.has str_eqb (fst ix) w || str_eqb w k.
Proof.
  destruct ix as [ki df]. unfold indexKeyword. simpl.
  destruct (str_eqb w k) eqn:E.
  - apply str_eqb_eq in E. subst w.
    rewrite JsMapFacts.has_set_same by apply str_eqb_eq.
    rewrite orb_true_r. reflexivity.
  - apply str_eqb_neq in E. rewrite orb_false_r.
    rewrite JsMapFacts.has_set_other by (try apply str_eqb_eq; congruence).
    destruct (JsMap.has str_eqb ki k); [reflexivity|].
    rewrite JsMapFacts.has_set_other by (try apply str_eqb_eq; congruence).
    reflexivity.
Qed.

Lemma indexChunk_has (cid : nat) (kws : KeywordMap) (w : jsstring) :
  forall ix,
    JsMap.has str_eqb (fst (fold_left (indexKeyword cid) kws ix)) w
    = JsMap.has str_eqb (fst ix) w || kw_has kws w.
Proof.
  induction kws as [|[k n] kws IH]; intros ix; simpl.
  - unfold kw_has, JsMap.has. simpl. rewrite orb_false_r. reflexivity.
  - rewrite IH, indexKeyword_has, kw_has_cons, orb_assoc. reflexivity.
Qed.

Lemma buildKeywordIndex_has (cs : list Chunk) (w : jsstring) :
  forall ix,
    JsMap.has str_eqb (fst (buildKeywordIndex cs ix)) w
    = JsMap.has str_eqb (fst ix) w || held cs w.
Proof.
  unfold buildKeywordIndex, held.
  induction cs as [|c cs IH]; intros ix; simpl.
  - rewrite orb_false_r. reflexivity.
  - rewrite IH. unfold indexChunk. rewrite indexChunk_has, orb_assoc.
    reflexivity.
Qed.

Lemma reachable_index_keys (s : State) (w : jsstring) :
  reachable s -> JsMap.has str_eqb (keywordIndex s) w = held (chunks s) w.
Proof.
  induction 1 as [|s0 msgs _ IH|s0 _ _]; try reflexivity.
  destruct msgs as [[|m ms]|]; cbn [indexConversation snd]; try exact IH.
  cbn [keywordIndex chunks]. rewrite buildKeywordIndex_has. reflexivity.
Qed.

(** X8: in every state of the engine a term is a key of the inverted
    index, and of the document-frequency map, exactly when some stored
    chunk has it among its keywords. *)
Theorem index_keys_are_held_terms (s : State) (w : jsstring) :
  reachable s ->
  (JsMap.has str_eqb (keywordIndex s) w = true
   <-> exists c, In c (chunks s) /\ kw_has (keywords c) w = true)
  /\ JsMap.has str_eqb (documentFrequency s) w
     = JsMap.has str_eqb (keywordIndex s) w.
Proof.
  intros Hr. split.
  - rewrite (reachable_index_keys s w Hr). unfold held.
    apply existsb_exists.
  - symmetry. apply same_keys_has. apply (wf_keys (reachable_wf s Hr)).
Qed.

Lemma index_keys_are_held_terms_witness :
  (JsMap.has str_eqb (keywordIndex three_state) rust_query = true
   <-> exists c, In c (chunks three_state)
                 /\ kw_has (keywords c) rust_query = true)
  /\ JsMap.has str_eqb (documentFrequency three_state) rust_query
     = JsMap.has str_eqb (keywordIndex three_state) rust_query.
Proof.
  apply (@index_keys_are_held_terms three_state rust_query
           (Properties.reachable_after_index three_talk)).
Defined.

End KeywordProperties.

(* ================================================================= *)
(** ** Further properties: search and context *)

Module SearchProperties.
Import JsString JsFacts ChatIndexer Invariants Samples Vocabulary MoreSamples.
Import IndexerFacts SearchFacts.

Local Open Scope Z_scope.

(** *** How many chunks come back *)

Lemma set_length_le {V} (m : JsMap.t nat V) (k : nat) (v : V) :
  (List.length (JsMap.set Nat.eqb m k v) <= S (List.length m))%nat.
Proof.
  induction m as [|[k' v'] m IH]; simpl; [lia|].
  destruct (Nat.eqb k k'); simpl; lia.
Qed.

Lemma computeScores_length (s : State) (qk : KeywordMap) :
  (List.length (computeScores s qk) <= List.length (chunks s))%nat.
Proof.
  unfold computeScores.
  assert (H : forall cs acc,
             (List.length (fold_left (recordScore s qk) cs acc)
              <= List.length acc + List.length cs)%nat).
  { induction cs as [|c cs IH]; intros acc; simpl; [lia|].
    specialize (IH (recordScore s qk acc c)).
    assert (Hr : (List.length (recordScore s qk acc c)
                  <= S (List.length acc))%nat).
    { unfold recordScore. destruct (Rlt_dec 0 (chunkScore s qk c)).
      - apply set_length_le.
      - lia. }
    lia. }
  specialize (H (chunks s) []). simpl in H. exact H.
Qed.

(** X9: for [topK >= 1] a search returns at most [topK] chunks and never
    more than are stored, whatever the state and the query. *)
Theorem search_returns_at_most_topK (s : State) (query : jsstring) (topK : Z) :
  1 <= topK ->
  Z.of_nat (List.length (search s query topK)) <= topK
  /\ (List.length (search s query topK) <= List.length (chunks s))%nat.
Proof.
  intros Hk. unfold search.
  destruct (negb (isIndexed s) || (List.length (chunks s) =? 0)%nat);
    [simpl; lia|].
  destruct (JsMap.size (extractKeywords query) =? 0)%nat.
  - rewrite length_map, slice_from_last by exact Hk.
    rewrite length_skipn. lia.
  - rewrite sortByStart_length, length_map, slice_prefix by lia.
    rewrite length_firstn, sort_length.
    pose proof (computeScores_length s (extractKeywords query)). lia.
Qed.

Lemma search_returns_at_most_topK_witness :
  Z.of_nat (List.length (search three_state stop_query 2)) <= 2
  /\ (List.length (search three_state stop_query 2)
      <= List.length (chunks three_state))%nat.
Proof.
  apply (@search_returns_at_most_topK three_state stop_query 2). lia.
Defined.

(** X12: for [topK >= 1] a query without keywords gets the last [topK]
    stored chunks, all of them when fewer are stored, in stored order. *)
Theorem fallback_returns_last_topK
        (s : State) (query : jsstring) (topK : Z) :
  isIndexed s = true -> chunks s <> [] -> extractKeywords query = [] ->
  1 <= topK ->
  search s query topK
  = map Some (skipn (List.length (chunks s) - Z.to_nat topK) (chunks s))
  /\ Z.of_nat (List.length (search s query topK))
     = Z.min topK (Z.of_nat (List.length (chunks s))).
Proof.
  intros Hon Hne Hq Hk.
  rewrite (Properties.search_fallback_last s query topK Hon Hne Hq Hk).
  split; [reflexivity|].
  rewrite length_map, length_skipn. lia.
Qed.

Lemma fallback_returns_last_topK_witness :
  search three_state stop_query 2
  = map Some (skipn (List.length (chunks three_state) - Z.to_nat 2)
                    (chunks three_state))
  /\ Z.of_nat (List.length (search three_state stop_query 2))
     = Z.min 2 (Z.of_nat (List.length (chunks three_state))).
Proof.
  apply (@fallback_returns_last_topK three_state stop_query 2).
  - reflexivity.
  - vm_compute. discriminate.
  - vm_compute. reflexivity.
  - lia.
Defined.

(** *** The order of the result *)

Lemma increasing_ordered (l : list Z) : increasing l -> ordered l.
Proof.
  induction l as [|x l IH]; simpl; [tauto|].
  intros [H1 H2]. split; [|apply IH; exact H2].
  apply (Forall_impl _ (fun y (Hy : x < y) => Z.lt_le_incl _ _ Hy) H1).
Qed.

Lemma increasing_skipn (n : nat) (l : list Z) :
  increasing l -> increasing (skipn n l).
Proof.
  revert l. induction n as [|n IH]; intros l H; [exact H|].
  destruct l as [|x l]; [exact H|]. simpl. apply IH. apply H.
Qed.

Lemma insert_ordered (a : Chunk) (l : list Chunk) :
  ordered (map start l) -> ordered (map start (insert byStart a l)).
Proof.
  induction l as [|y l IH]; simpl.
  - intros _. split; [constructor | exact I].
  - intros [Hall Hord]. unfold byStart at 1.
    destruct (start a <=? start y) eqn:E.
    + apply Z.leb_le in E. simpl. split; [|split; assumption].
      constructor; [exact E|].
      apply (Forall_impl _ (fun z (Hz : start y <= z) =>
                              Z.le_trans _ _ _ E Hz) Hall).
    + apply Z.leb_gt in E. simpl. split; [|apply IH; exact Hord].
      apply Forall_forall. intros z Hz. apply in_map_iff in Hz.
      destruct Hz as [c [<- Hc]]. apply insert_In in Hc.
      destruct Hc as [->|Hc]; [lia|].
      rewrite Forall_forall in Hall. apply Hall. apply in_map. exact Hc.
Qed.

Lemma sort_ordered (l : list Chunk) : ordered (map start (sort byStart l)).
Proof.
  induction l as [|a l IH]; simpl; [exact I|].
  apply insert_ordered. exact IH.
Qed.

Lemma consecutive_increasing (cs : list Chunk) :
  (forall i c c', nth_error cs i = Some c -> nth_error cs (S i) = Some c' ->
                  start c < start c') ->
  increasing (map start cs).
Proof.
  induction cs as [|x cs IH]; intros H; simpl; [exact I|].
  assert (Hrest : increasing (map start cs)).
  { apply IH. intros i c c' Hc Hc'. apply (H (S i) c c'); assumption. }
  split; [|exact Hrest].
  destruct cs as [|y cs]; [constructor|].
  assert (Hxy : start x < start y) by (apply (H O x y); reflexivity).
  simpl in Hrest. destruct Hrest as [Hy _].
  constructor; [exact Hxy|].
  apply (Forall_impl _ (fun z (Hz : start y < z) =>
                          Z.lt_trans _ _ _ Hxy Hz) Hy).
Qed.

Lemma reachable_starts_increasing (s : State) :
  reachable s -> increasing (map start (chunks s)).
Proof.
  induction 1 as [|s0 msgs _ IH|s0 _ _]; try exact I.
  destruct msgs as [[|m ms]|]; cbn [indexConversation snd chunks];
    try exact IH.
  apply consecutive_increasing. intros i c c' Hc Hc'.
  apply (createChunks_linked _ i c c' Hc Hc').
Qed.

(** X10: in every state of the engine the chunks a search returns come in
    ascending order of their start offsets, and the stored chunks
    themselves have strictly increasing starts. *)
Theorem search_results_in_document_order
        (s : State) (query : jsstring) (topK : Z) :
  reachable s ->
  increasing (map start (chunks s))
  /\ exists cs, search s query topK = map Some cs
                /\ ordered (map start cs).
Proof.
  intros Hr. pose proof (reachable_starts_increasing s Hr) as Hinc.
  pose proof (reachable_wf s Hr) as Hwf.
  split; [exact Hinc|].
  pose proof (Properties.search_no_holes s query topK Hwf) as Hholes.
  revert Hholes. unfold search.
  destruct (negb (isIndexed s) || (List.length (chunks s) =? 0)%nat).
  { intros _. exists []. split; [reflexivity | exact I]. }
  destruct (JsMap.size (extractKeywords query) =? 0)%nat.
  - intros _. eexists. split; [reflexivity|].
    unfold JsArray.slice_from. rewrite <- skipn_map.
    apply increasing_ordered, increasing_skipn. exact Hinc.
  - set (picked := map _ (JsArray.slice _ 0 topK)).
    intros Hholes.
    assert (Hnone : undefineds picked = []).
    { apply undefineds_nil. intros x Hx. apply Hholes.
      unfold sortByStart. apply in_or_app.
      destruct x as [c|]; [left | right].
      - apply in_map. apply sort_In. apply defined_In. exact Hx.
      - unfold undefineds. apply filter_In. split; [exact Hx | reflexivity]. }
    exists (sort byStart (defined picked)). split.
    + unfold sortByStart. rewrite Hnone, app_nil_r. reflexivity.
    + apply sort_ordered.
Qed.

Lemma search_results_in_document_order_witness :
  increasing (map start (chunks long_state))
  /\ exists cs, search long_state stop_query TOP_K = map Some cs
                /\ ordered (map start cs).
Proof.
  apply (@search_results_in_document_order long_state stop_query TOP_K
           (Properties.reachable_after_index long_talk)).
Defined.

(** *** Terms that every chunk has *)

Lemma filter_all {A} (f : A -> bool) (l : list A) :
  (forall x, In x l -> f x = true) -> filter f l = l.
Proof.
  induction l as [|x l IH]; intros H; simpl; [reflexivity|].
  rewrite (H x (or_introl eq_refl)). f_equal. apply IH.
  intros y Hy. apply H. right. exact Hy.
Qed.

Lemma idf_common (N : nat) : (1 <= N)%nat -> idf N N = 0%R.
Proof.
  intros HN. unfold idf, Rdiv. rewrite Rinv_r.
  - apply ln_1.
  - apply not_0_INR. lia.
Qed.

Lemma dfOr1_common (s : State) (w : jsstring) :
  wf s -> chunks s <> [] ->
  (forall c, In c (chunks s) -> kw_has (keywords c) w = true) ->
  dfOr1 s w = List.length (chunks s).
Proof.
  intros Hwf Hne Hall. rewrite dfOr1_docFreq, (wf_docFreq Hwf).
  unfold holders. rewrite (filter_all _ _ Hall), length_map.
  destruct (chunks s); [congruence | reflexivity].
Qed.

Lemma chunkScore_common (s : State) (qk : KeywordMap) (c : Chunk) :
  wf s -> In c (chunks s) ->
  (forall w, kw_has qk w = true ->
             (forall c', In c' (chunks s) -> kw_has (keywords c') w = true)
             \/ (forall c', In c' (chunks s) ->
                            kw_has (keywords c') w = false)) ->
  chunkScore s qk c = 0%R.
Proof.
  intros Hwf Hin Hcommon. unfold chunkScore.
  assert (Hne : chunks s <> []) by (intros E; rewrite E in Hin; destruct Hin).
  assert (HN : (1 <= List.length (chunks s))%nat).
  { destruct (chunks s); [congruence | simpl; lia]. }
  assert (Hentries : forall e, In e qk ->
            (forall c', In c' (chunks s) ->
                        kw_has (keywords c') (fst e) = true)
            \/ (forall c', In c' (chunks s) ->
                           kw_has (keywords c') (fst e) = false)).
  { intros [w n] He. apply Hcommon.
    apply (JsMapFacts.in_has str_eqb str_eqb_eq qk w n He). }
  clear Hcommon.
  assert (H : forall acc, acc = 0%R ->
            fold_left (addTerm s (List.length (chunks s)) c) qk acc = 0%R).
  { induction qk as [|e qk IH]; intros acc Hacc; simpl; [exact Hacc|].
    apply IH; [intros e' He'; apply Hentries; right; exact He'|].
    unfold addTerm.
    destruct (kw_get (keywords c) (fst e)) as [tf|] eqn:G; [|exact Hacc].
    assert (Hc : kw_has (keywords c) (fst e) = true)
      by (apply kw_has_get; eauto).
    destruct (Hentries e (or_introl eq_refl)) as [Hall|Hnone].
    - rewrite (dfOr1_common s (fst e) Hwf Hne Hall), (idf_common _ HN), Hacc.
      ring.
    - rewrite (Hnone c Hin) in Hc. discriminate. }
  rewrite (H 0%R eq_refl). apply Rmult_0_l.
Qed.

(** X11: in every state of the engine, a query with at least one keyword
    whose keywords each occur in every stored chunk or in none returns
    nothing: a term all chunks share has [idf = ln(N / N) = 0]. *)
Theorem shared_terms_rank_nothing
        (s : State) (query : jsstring) (topK : Z) :
  reachable s ->
  extractKeywords query <> [] ->
  (forall w, kw_has (extractKeywords query) w = true ->
             (forall c, In c (chunks s) -> kw_has (keywords c) w = true)
             \/ (forall c, In c (chunks s) -> kw_has (keywords c) w = false)) ->
  search s query topK = [].
Proof.
  intros Hr Hq Hcommon. pose proof (reachable_wf s Hr) as Hwf.
  destruct (search s query topK) as [|x l] eqn:E; [reflexivity|].
  exfalso.
  destruct (search_ranked s query topK x Hwf Hq) as [c [_ [Hin Hpos]]].
  - rewrite E. left. reflexivity.
  - rewrite (chunkScore_common s _ c Hwf Hin Hcommon) in Hpos. lra.
Qed.

Lemma shared_terms_rank_nothing_witness :
  search three_state rust_query TOP_K = [].
Proof.
  apply (@shared_terms_rank_nothing three_state rust_query TOP_K
           (Properties.reachable_after_index three_talk)).
  - vm_compute. discriminate.
  - intros w Hw. left. intros c Hc.
    assert (Hq : extractKeywords rust_query = [(rust_query, 1%nat)])
      by (vm_compute; reflexivity).
    rewrite Hq in Hw. unfold kw_has, JsMap.has in Hw. simpl in Hw.
    destruct (str_eqb w rust_query) eqn:Ew; [|discriminate].
    apply str_eqb_eq in Ew. subst w.
    assert (Hcs : chunks three_state
                  = [three_first; three_second;
                     nth 2 (chunks three_state) no_chunk])
      by (vm_compute; reflexivity).
    rewrite Hcs in Hc.
    destruct Hc as [<-|[<-|[<-|[]]]]; vm_compute; reflexivity.
Defined.

(** *** When everything fits *)

Lemma join_cons_app (sep a b : jsstring) (l : list jsstring) :
  join sep ((a ++ sep ++ b) :: l) = a ++ sep ++ join sep (b :: l).
Proof.
  destruct l as [|x l]; [reflexivity|].
  change (join sep ((a ++ sep ++ b) :: x :: l))
    with ((a ++ sep ++ b) ++ sep ++ join sep (x :: l)).
  change (join sep (b :: x :: l)) with (b ++ sep ++ join sep (x :: l)).
  rewrite <- !app_assoc. reflexivity.
Qed.

Lemma join_cons_length (sep a : jsstring) (l : list jsstring) :
  strlen a <= strlen (join sep (a :: l)).
Proof.
  destruct l as [|x l]; [simpl; lia|].
  change (join sep (a :: x :: l)) with (a ++ sep ++ join sep (x :: l)).
  rewrite strlen_app. pose proof (strlen_nonneg (sep ++ join sep (x :: l))).
  lia.
Qed.

Lemma appendWhole_join (cs : list Chunk) :
  forall context,
    context <> [] ->
    strlen (join [nl; nl] (context :: map text cs)) <= MAX_CONTEXT_CHARS ->
    appendWhole context cs = Some (join [nl; nl] (context :: map text cs)).
Proof.
  induction cs as [|c cs IH]; intros context Hne Hfit; [reflexivity|].
  cbn [appendWhole map].
  assert (Hsep : separator context = [nl; nl])
    by (destruct context; [congruence | reflexivity]).
  cbn [map] in Hfit.
  assert (Hjoin : join [nl; nl] (context :: text c :: map text cs)
                  = context ++ [nl; nl] ++ join [nl; nl] (text c :: map text cs))
    by reflexivity.
  rewrite Hjoin in Hfit |- *.
  assert (Hlen : strlen context + strlen (text c) <= MAX_CONTEXT_CHARS).
  { rewrite !strlen_app in Hfit.
    pose proof (join_cons_length [nl; nl] (text c) (map text cs)).
    pose proof (strlen_nonneg [nl; nl]). lia. }
  apply Z.ltb_ge in Hlen. rewrite Hlen, Hsep.
  rewrite <- join_cons_app. apply IH.
  - destruct context; [congruence | discriminate].
  - rewrite join_cons_app. exact Hfit.
Qed.

(** X13: in every state of the engine, when the texts of the chunks a
    default search returns, joined by blank lines, fit the budget, the
    context is exactly that join. *)
Theorem context_is_join_when_it_fits
        (s : State) (query : jsstring) (cs : list Chunk) :
  reachable s ->
  search s query TOP_K = map Some cs ->
  strlen (join [nl; nl] (map text cs)) <= MAX_CONTEXT_CHARS ->
  getContextForQuery s query = Ok (join [nl; nl] (map text cs)).
Proof.
  intros Hr Hs Hfit. pose proof (reachable_wf s Hr) as Hwf.
  rewrite Properties.getContextForQuery_assemble, Hs.
  destruct cs as [|c cs]; [reflexivity|].
  assert (Hc : text c <> []).
  { assert (Hin : In (Some c) (search s query TOP_K))
      by (rewrite Hs; left; reflexivity).
    destruct (search_stored s query TOP_K (Some c) Hwf Hin) as [c0 [E Hc0]].
    injection E as <-.
    pose proof (wf_chunks Hwf) as Hall. rewrite Forall_forall in Hall.
    destruct (Hall c Hc0) as [_ [[Hlen _] _]].
    intros E. rewrite E in Hlen. change (strlen []) with 0 in Hlen. lia. }
  cbn [map] in Hfit |- *.
  rewrite assemble_cons.
  assert (Hfirst : strlen [] + strlen (text c) <= MAX_CONTEXT_CHARS).
  { pose proof (join_cons_length [nl; nl] (text c) (map text cs)).
    change (strlen []) with 0. lia. }
  apply Z.ltb_ge in Hfirst. rewrite Hfirst.
  change ([] ++ separator [] ++ text c) with (text c).
  rewrite <- (app_nil_r (map Some cs)).
  rewrite (assemble_appendWhole cs [] (text c)
             (join [nl; nl] (text c :: map text cs))
             (appendWhole_join cs (text c) Hc Hfit)).
  reflexivity.
Qed.

Lemma context_is_join_when_it_fits_witness :
  getContextForQuery three_state stop_query
  = Ok (join [nl; nl] (map text (chunks three_state))).
Proof.
  apply (@context_is_join_when_it_fits three_state stop_query
           (chunks three_state)
           (Properties.reachable_after_index three_talk)).
  - vm_compute. reflexivity.
  - vm_compute. discriminate.
Defined.

(** *** When the last chunk is cut *)

(** X14: in every state of the engine, when the next chunk does not fit,
    the context that comes back has exactly [MAX_CONTEXT_CHARS - 2] code
    units, whatever ran before. *)
Theorem truncated_context_length
        (s : State) (query : jsstring) (pre : list Chunk) (c : Chunk)
        (rest : list (option Chunk)) (context : jsstring) :
  reachable s ->
  search s query TOP_K = map Some pre ++ Some c :: rest ->
  appendWhole [] pre = Some context ->
  MAX_CONTEXT_CHARS < strlen context + strlen (text c) ->
  exists r, getContextForQuery s query = Ok r
            /\ strlen r = MAX_CONTEXT_CHARS - 2.
Proof.
  intros Hr Hs Hpre Hover. apply reachable_wf in Hr.
  set (remaining := MAX_CONTEXT_CHARS - strlen context - 10).
  assert (Hlen : (List.length pre <= 3)%nat).
  { pose proof (search_default_length s query) as H. rewrite Hs in H.
    rewrite length_app, length_map in H. simpl in H. lia. }
  assert (Hshort : Forall (fun c' => strlen (text c') <= MAX_TEXT) pre).
  { apply Forall_forall. intros c' Hc'.
    assert (Hin : In (Some c') (search s query TOP_K)).
    { rewrite Hs. apply in_or_app. left. apply in_map. exact Hc'. }
    destruct (search_stored _ _ _ _ Hr Hin) as [c0 [E Hc0]].
    injection E as <-.
    pose proof (wf_chunks Hr) as Hall. rewrite Forall_forall in Hall.
    apply Hall in Hc0. destruct Hc0 as [_ [[_ H] _]]. exact H. }
  pose proof (appendWhole_length _ _ Hshort _ _ Hpre) as Hctx.
  change (strlen []) with 0 in Hctx.
  unfold MAX_TEXT, CHUNK_SIZE in Hctx.
  assert (Hrem : 50 < remaining)
    by (subst remaining; unfold MAX_CONTEXT_CHARS; nia).
  exists (truncated context c remaining). split.
  - rewrite Properties.getContextForQuery_assemble, Hs.
    rewrite (assemble_appendWhole _ _ _ _ Hpre), assemble_cons.
    apply Z.ltb_lt in Hover, Hrem. fold remaining.
    rewrite Hover, Hrem. reflexivity.
  - unfold truncated. rewrite !strlen_app.
    rewrite substring_prefix_length by (subst remaining; lia).
    change (strlen (nl :: str "..." ++ [nl])) with 5.
    change (strlen (str "...")) with 3. subst remaining. lia.
Qed.

Lemma truncated_context_length_witness :
  exists r, getContextForQuery long_state stop_query = Ok r
            /\ strlen r = MAX_CONTEXT_CHARS - 2.
Proof.
  apply (@truncated_context_length
           long_state stop_query long_pre long_last [] long_context).
  - apply Properties.reachable_after_index.
  - vm_compute. reflexivity.
  - vm_compute. reflexivity.
  - vm_compute. reflexivity.
Defined.

End SearchProperties.

(* ================================================================= *)
(** ** Further properties: the chat application *)

Module ChatAppProperties.
Import JsString JsFacts ChatIndexer Invariants Samples Vocabulary MoreSamples.
Import ChatApp IndexerFacts SearchFacts.

Local Open Scope Z_scope.

(** *** Titles *)

Lemma trimStart_fixed_or_shorter (s : jsstring) :
  trimStart s = s \/ (List.length (trimStart s) < List.length s)%nat.
Proof.
  destruct s as [|c s]; [left; reflexivity|]. simpl.
  destruct (is_space c); [|left; reflexivity].
  right. pose proof (trimStart_length s). simpl. lia.
Qed.

Lemma trim_fixed_or_shorter (s : jsstring) :
  trim s = s \/ strlen (trim s) < strlen s.
Proof.
  unfold trim, trimEnd, strlen.
  destruct (trimStart_fixed_or_shorter s) as [Hs|Hs].
  - rewrite Hs.
    destruct (trimStart_fixed_or_shorter (rev s)) as [Hr|Hr].
    + left. rewrite Hr. apply rev_involutive.
    + right. rewrite length_rev. rewrite length_rev in Hr. lia.
  - right. rewrite length_rev.
    pose proof (trimStart_length (rev (trimStart s))) as H.
    rewrite length_rev in H. lia.
Qed.

Lemma title_prefix_length (message : jsstring) :
  strlen (trim (substring message 0 50)) <= 50.
Proof.
  pose proof (trim_length (substring message 0 50)) as H1.
  assert (H2 : strlen (substring message 0 50) <= 50 - 0)
    by (apply substring_length_le; lia).
  lia.
Qed.

(** X15: a generated title has at most 53 code units, and for a message
    of more than 50 it is the first 50 code units, trimmed, followed by
    an ellipsis. *)
Theorem generateTitle_bounded (message : jsstring) :
  strlen (generateTitle message) <= 53
  /\ (50 < strlen message ->
      generateTitle message
      = trim (substring message 0 50) ++ str "...").
Proof.
  pose proof (title_prefix_length message) as Hp.
  unfold generateTitle. split.
  - destruct (strlen (trim (substring message 0 50)) <? strlen message).
    + rewrite strlen_app. change (strlen (str "...")) with 3. lia.
    + lia.
  - intros Hlong.
    assert (H : (strlen (trim (substring message 0 50)) <? strlen message)
                = true) by (apply Z.ltb_lt; lia).
    rewrite H. reflexivity.
Qed.

Lemma generateTitle_bounded_witness :
  50 < strlen (conversationText three_talk ++ conversationText three_talk)
  /\ generateTitle (conversationText three_talk ++ conversationText three_talk)
     = trim (substring
               (conversationText three_talk ++ conversationText three_talk)
               0 50) ++ str "...".
Proof.
  assert (H : 50 < strlen (conversationText three_talk
                             ++ conversationText three_talk))
    by (vm_compute; reflexivity).
  split; [exact H|].
  apply (proj2 (@generateTitle_bounded
                  (conversationText three_talk ++ conversationText three_talk))
               H).
Defined.

(** X16: a message of at most 50 code units is its own title when it has
    no white space at either end; when it has, the title is the trimmed
    message followed by an ellipsis, although nothing but blanks was cut. *)
Theorem generateTitle_short_message (message : jsstring) :
  strlen message <= 50 ->
  (trim message = message -> generateTitle message = message)
  /\ (trim message <> message ->
      generateTitle message = trim message ++ str "...").
Proof.
  intros Hshort. unfold generateTitle.
  assert (Hsub : substring message 0 50 = message).
  { rewrite substring_prefix by lia. apply firstn_all2.
    unfold strlen in Hshort. lia. }
  rewrite Hsub. split.
  - intros Hfix. rewrite Hfix, Z.ltb_irrefl. reflexivity.
  - intros Hne. destruct (trim_fixed_or_shorter message) as [H|H];
      [contradiction|].
    apply Z.ltb_lt in H. rewrite H. reflexivity.
Qed.

Lemma generateTitle_short_message_witness :
  strlen hello <= 50 /\ trim hello = hello /\ generateTitle hello = hello.
Proof.
  assert (H1 : strlen hello <= 50) by (vm_compute; discriminate).
  assert (H2 : trim hello = hello) by reflexivity.
  split; [exact H1|]. split; [exact H2|].
  apply (proj1 (@generateTitle_short_message hello H1) H2).
Defined.

(** *** The retrieval step of sendMessage *)

Lemma slice_drop_last {A} (l : list A) :
  JsArray.slice l 0 (-1) = removelast l.
Proof.
  unfold JsArray.slice, JsArray.rel.
  change (0 <? 0) with false. change (-1 <? 0) with true. cbv iota.
  replace (Z.min 0 (Z.of_nat (List.length l))) with 0 by lia.
  change (Z.to_nat 0) with O. rewrite skipn_0.
  rewrite removelast_firstn_len. f_equal. lia.
Qed.

(** X17: once the conversation has more than four messages, the context
    handed to the completion call is read from an index rebuilt in the
    same step from all messages but the one just sent: the engine's
    earlier state plays no part, the call does not fail, and the context
    has at most [MAX_CONTEXT_CHARS + 2] code units. *)
Theorem rag_context_uses_fresh_index
        (messages : list Message) (text : jsstring) (s : State) :
  4 < count messages ->
  let rebuilt := snd (indexConversation (Some (removelast messages)) init) in
  exists r,
    ragContextFor messages text s = (Ok r, rebuilt)
    /\ getContextForQuery rebuilt text = Ok r
    /\ strlen r <= MAX_CONTEXT_CHARS + 2.
Proof.
  intros Hlen rebuilt. unfold count in Hlen.
  assert (Hwf : wf rebuilt).
  { subst rebuilt. apply indexConversation_wf. apply (wf_empty false). }
  assert (Hstate :
            snd (indexConversation (Some (JsArray.slice messages 0 (-1))) s)
            = rebuilt).
  { rewrite slice_drop_last. subst rebuilt.
    destruct messages as [|a [|b l]]; simpl in Hlen; try lia.
    reflexivity. }
  destruct (assemble_defined (search rebuilt text TOP_K)
              (Properties.search_no_holes rebuilt text TOP_K Hwf) [])
    as [r Hr].
  rewrite <- Properties.getContextForQuery_assemble in Hr.
  exists r. split; [|split; [exact Hr|]].
  - unfold ragContextFor, count.
    assert (H2 : (2 <? Z.of_nat (List.length messages)) = true)
      by (apply Z.ltb_lt; lia).
    assert (H4 : (4 <? Z.of_nat (List.length messages)) = true)
      by (apply Z.ltb_lt; lia).
    rewrite H2, H4, Hstate, Hr. reflexivity.
  - rewrite Properties.getContextForQuery_assemble in Hr.
    apply (assemble_bound (search rebuilt text TOP_K) [] r); [|exact Hr].
    vm_compute. discriminate.
Qed.

Lemma rag_context_uses_fresh_index_witness :
  exists r,
    ragContextFor five_talk five_question gap_state
    = (Ok r, snd (indexConversation (Some (removelast five_talk)) init))
    /\ getContextForQuery
         (snd (indexConversation (Some (removelast five_talk)) init))
         five_question = Ok r
    /\ strlen r <= MAX_CONTEXT_CHARS + 2.
Proof.
  apply (@rag_context_uses_fresh_index five_talk five_question gap_state).
  vm_compute. reflexivity.
Defined.

(** *** The messages sent to the completion call *)

Lemma message_eta (l : list Message) :
  map (fun m => mkMessage (role m) (content m)) l = l.
Proof.
  induction l as [|[r c] l IH]; simpl; [reflexivity|].
  rewrite IH. reflexivity.
Qed.

Lemma slice_recent {A} (earlier : list A) (last : A) :
  JsArray.slice (earlier ++ [last]) (-6) (-1)
  = skipn (List.length earlier - 5) earlier.
Proof.
  unfold JsArray.slice, JsArray.rel.
  change (-6 <? 0) with true. change (-1 <? 0) with true. cbv iota.
  rewrite length_app. simpl List.length.
  set (n := List.length earlier).
  replace (Z.to_nat (Z.max (Z.of_nat (n + 1) + -6) 0)) with (n - 5)%nat
    by lia.
  replace (Z.to_nat (Z.max (Z.of_nat (n + 1) + -1) 0
                     - Z.max (Z.of_nat (n + 1) + -6) 0))
    with (n - (n - 5))%nat by lia.
  rewrite skipn_app. fold n.
  replace (n - 5 - n)%nat with O by lia. rewrite skipn_0.
  rewrite firstn_app, length_skipn. fold n.
  replace (n - (n - 5) - (n - (n - 5)))%nat with O by lia.
  rewrite firstn_0, app_nil_r. apply firstn_all2.
  rewrite length_skipn. fold n. lia.
Qed.

(** X18: the list sent to the completion call is the system prompt, then
    the last five messages before the one just sent (all of them when
    fewer), then the question: the message just sent, which is the last
    of [this.messages], is not sent twice; the list never has more than
    seven entries. *)
Theorem fullMessages_shape
        (base : jsstring) (earlier : list Message) (last : Message)
        (question ragContext : jsstring) :
  fullMessages base (earlier ++ [last]) question ragContext
  = mkMessage (str "system") (systemPromptWith base ragContext)
    :: skipn (List.length earlier - 5) earlier
    ++ [mkMessage (str "user") question]
  /\ (List.length (fullMessages base (earlier ++ [last]) question ragContext)
      <= 7)%nat.
Proof.
  assert (H : fullMessages base (earlier ++ [last]) question ragContext
              = mkMessage (str "system") (systemPromptWith base ragContext)
                :: skipn (List.length earlier - 5) earlier
                ++ [mkMessage (str "user") question]).
  { unfold fullMessages, recentMessages.
    rewrite message_eta, slice_recent. reflexivity. }
  split; [exact H|].
  rewrite H. simpl List.length. rewrite length_app, length_skipn. simpl. lia.
Qed.

End ChatAppProperties.

(* ================================================================= *)
(** ** Further properties: results, recency and code fences *)

Module ResultProperties.
Import JsString JsFacts ChatIndexer Invariants Samples Vocabulary MoreSamples.
Import ChatApp IndexerFacts SearchFacts.

Local Open Scope Z_scope.

(** *** No chunk twice *)

Lemma nat_eqb_eq (a b : nat) : Nat.eqb a b = true <-> a = b.
Proof. apply Nat.eqb_eq. Qed.

Lemma computeScores_keys_NoDup (s : State) (qk : KeywordMap) :
  NoDup (JsMap.keys (computeScores s qk)).
Proof.
  unfold computeScores. apply fold_left_inv; [|constructor].
  intros scores c _ Hnd. unfold recordScore.
  destruct (Rlt_dec 0 (chunkScore s qk c)); [|exact Hnd].
  apply (JsMapFacts.keys_set_NoDup Nat.eqb nat_eqb_eq). exact Hnd.
Qed.

Section SortNoDup.
Variables (A B : Type) (le : A -> A -> bool) (f : A -> B).

Lemma insert_map_NoDup (a : A) (l : list A) :
  NoDup (map f (a :: l)) -> NoDup (map f (insert le a l)).
Proof.
  induction l as [|y l IH]; simpl; [tauto|].
  destruct (le a y); [tauto|].
  intros H. inversion H as [|? ? Ha Hrest]; subst.
  inversion Hrest as [|? ? Hy Hl]; subst. simpl.
  constructor.
  - intros Hin. apply in_map_iff in Hin. destruct Hin as [x [Hx Hin]].
    apply insert_In in Hin. destruct Hin as [->|Hin].
    + apply Ha. left. symmetry. exact Hx.
    + apply Hy. rewrite <- Hx. apply in_map. exact Hin.
  - apply IH. simpl. constructor; [|exact Hl].
    intros Hin. apply Ha. right. exact Hin.
Qed.

Lemma sort_map_NoDup (l : list A) :
  NoDup (map f l) -> NoDup (map f (sort le l)).
Proof.
  induction l as [|a l IH]; simpl; [tauto|].
  intros H. inversion H as [|? ? Ha Hl]; subst.
  apply insert_map_NoDup. simpl. constructor; [|apply IH; exact Hl].
  intros Hin. apply Ha. apply in_map_iff in Hin.
  destruct Hin as [x [Hx Hin]]. apply sort_In in Hin.
  rewrite <- Hx. apply in_map. exact Hin.
Qed.
End SortNoDup.

Lemma firstn_map_NoDup {A B} (f : A -> B) (n : nat) (l : list A) :
  NoDup (map f l) -> NoDup (map f (firstn n l)).
Proof.
  revert l. induction n as [|n IH]; intros l H; [constructor|].
  destruct l as [|a l]; [constructor|]. simpl in *.
  inversion H as [|? ? Ha Hl]; subst. constructor; [|apply IH; exact Hl].
  intros Hin. apply Ha. apply in_map_iff in Hin.
  destruct Hin as [x [Hx Hin]]. apply in_firstn in Hin.
  rewrite <- Hx. apply in_map. exact Hin.
Qed.

Lemma skipn_NoDup {A} (n : nat) (l : list A) : NoDup l -> NoDup (skipn n l).
Proof.
  revert l. induction n as [|n IH]; intros l H; [exact H|].
  destruct l as [|a l]; [constructor|]. simpl. apply IH.
  inversion H. assumption.
Qed.

Lemma map_Some_NoDup {A} (l : list A) : NoDup l -> NoDup (map Some l).
Proof.
  induction 1 as [|a l Ha _ IH]; simpl; constructor; [|exact IH].
  intros Hin. apply in_map_iff in Hin. destruct Hin as [x [Hx Hin]].
  injection Hx as ->. contradiction.
Qed.

(** Entries with different ids pick different chunks. *)
Lemma picked_NoDup (cs : list Chunk) (entries : list (nat * R)) :
  ids_ok cs ->
  (forall e, In e entries -> exists c, nth_error cs (fst e) = Some c) ->
  NoDup (map fst entries) ->
  NoDup (defined (map (fun e => nth_error cs (fst e)) entries)).
Proof.
  intros Hids. induction entries as [|e entries IH]; intros Hall Hnd; simpl.
  - constructor.
  - inversion Hnd as [|? ? He Hrest]; subst.
    destruct (Hall e (or_introl eq_refl)) as [c Hc]. rewrite Hc. simpl.
    constructor.
    + intros Hin. apply defined_In in Hin. apply in_map_iff in Hin.
      destruct Hin as [e' [He' Hin']].
      apply He. apply in_map_iff. exists e'. split; [|exact Hin'].
      rewrite <- (ids_ok_nth cs (fst e') c Hids He').
      apply (ids_ok_nth cs (fst e) c Hids Hc).
    + apply IH; [|exact Hrest]. intros e' He'. apply Hall. right. exact He'.
Qed.

(** X19: in every state of the engine a search returns no chunk twice. *)
Theorem search_returns_distinct_chunks
        (s : State) (query : jsstring) (topK : Z) :
  reachable s -> NoDup (search s query topK).
Proof.
  intros Hr. pose proof (reachable_wf s Hr) as Hwf.
  pose proof (ids_ok_NoDup _ (wf_ids Hwf)) as Hnd.
  unfold search.
  destruct (negb (isIndexed s) || (List.length (chunks s) =? 0)%nat);
    [constructor|].
  destruct (JsMap.size (extractKeywords query) =? 0)%nat.
  - apply map_Some_NoDup.
    unfold JsArray.slice_from. apply skipn_NoDup. exact Hnd.
  - set (entries := JsArray.slice _ 0 topK).
    assert (Hentries : forall e, In e entries ->
              exists c, nth_error (chunks s) (fst e) = Some c).
    { intros [k v] He. subst entries. apply slice_incl in He.
      apply sort_In in He. apply computeScores_In in He.
      destruct He as [c [Hc [-> _]]]. exists c.
      apply ids_ok_lookup; [apply Hwf | exact Hc]. }
    assert (Hkeys : NoDup (map fst entries)).
    { subst entries. unfold JsArray.slice.
      apply firstn_map_NoDup.
      unfold JsArray.rel. change (0 <? 0) with false. cbv iota.
      replace (Z.to_nat (Z.min 0 (Z.of_nat (List.length
                 (sort byScoreDesc
                       (computeScores s (extractKeywords query)))))))
        with O by lia.
      rewrite skipn_0. apply sort_map_NoDup.
      apply computeScores_keys_NoDup. }
    set (picked := map (fun e => nth_error (chunks s) (fst e)) entries).
    assert (Hnone : undefineds picked = []).
    { apply undefineds_nil. intros x Hx. subst picked.
      apply in_map_iff in Hx. destruct Hx as [e [<- He]].
      destruct (Hentries e He) as [c ->]. discriminate. }
    unfold sortByStart. rewrite Hnone, app_nil_r.
    apply map_Some_NoDup.
    rewrite <- (map_id (sort byStart (defined picked))).
    apply sort_map_NoDup. rewrite map_id.
    apply picked_NoDup; [apply Hwf | exact Hentries | exact Hkeys].
Qed.

Lemma search_returns_distinct_chunks_witness :
  NoDup (search long_state stop_query TOP_K).
Proof.
  apply (@search_returns_distinct_chunks long_state stop_query TOP_K
           (Properties.reachable_after_index long_talk)).
Defined.

(** *** Recency *)

(** X20: of two stored chunks with the same keyword map the one stored
    later scores strictly higher whenever the earlier one scores above
    zero: the recency factor grows with the id. *)
Theorem later_twin_scores_higher
        (s : State) (qk : KeywordMap) (c c' : Chunk) :
  In c (chunks s) -> keywords c = keywords c' -> (id c < id c')%nat ->
  (0 < chunkScore s qk c)%R ->
  (chunkScore s qk c < chunkScore s qk c')%R.
Proof.
  intros Hin Hkw Hid Hpos. unfold chunkScore in *.
  set (N := List.length (chunks s)) in *.
  assert (HN : (1 <= N)%nat).
  { subst N. destruct (chunks s); [destruct Hin | simpl; lia]. }
  assert (Hsame : fold_left (addTerm s N c') qk 0%R
                  = fold_left (addTerm s N c) qk 0%R).
  { clear Hpos. generalize 0%R.
    induction qk as [|e qk IH]; intros acc; simpl; [reflexivity|].
    rewrite IH. f_equal. unfold addTerm. rewrite Hkw. reflexivity. }
  rewrite Hsame. set (B := fold_left (addTerm s N c) qk 0%R) in *.
  pose proof (recencyBoost_pos N c HN) as Hb.
  assert (HB : (0 < B)%R).
  { destruct (Rlt_dec 0 B) as [H|H]; [exact H|].
    exfalso. apply Rnot_lt_le in H.
    assert (B * recencyBoost N c <= 0)%R by nra. lra. }
  apply Rmult_lt_compat_l; [exact HB|].
  unfold recencyBoost.
  assert (Hlt : (INR (id c) / INR N < INR (id c') / INR N)%R).
  { unfold Rdiv. apply Rmult_lt_compat_r.
    - apply Rinv_0_lt_compat, lt_0_INR. lia.
    - apply lt_INR. exact Hid. }
  lra.
Qed.

Lemma idf_pos (N df : nat) :
  (1 <= df)%nat -> (df < N)%nat -> (0 < idf N df)%R.
Proof.
  intros Hdf HN. unfold idf. rewrite <- ln_1.
  assert (H0 : (0 < INR df)%R) by (apply lt_0_INR; lia).
  assert (H1 : (INR df < INR N)%R) by (apply lt_INR; exact HN).
  apply ln_increasing; [lra|].
  apply (Rmult_lt_reg_r (INR df)); [exact H0|].
  unfold Rdiv. rewrite Rmult_assoc, Rinv_l by lra. lra.
Qed.

Lemma later_twin_scores_higher_witness :
  keywords three_first = keywords three_second
  /\ (chunkScore three_state (extractKeywords user_query) three_first
      < chunkScore three_state (extractKeywords user_query) three_second)%R.
Proof.
  assert (Hkw : keywords three_first = keywords three_second)
    by (vm_compute; reflexivity).
  split; [exact Hkw|].
  apply (@later_twin_scores_higher three_state
           (extractKeywords user_query) three_first three_second).
  - left. reflexivity.
  - exact Hkw.
  - vm_compute. lia.
  - unfold chunkScore.
    assert (HN : List.length (chunks three_state) = 3%nat) by reflexivity.
    assert (Hq : extractKeywords user_query = [(user_query, 1%nat)])
      by (vm_compute; reflexivity).
    assert (Hget : kw_get (keywords three_first) user_query = Some 1%nat)
      by (vm_compute; reflexivity).
    assert (Hdf : dfOr1 three_state user_query = 2%nat)
      by (vm_compute; reflexivity).
    rewrite HN, Hq. cbn [fold_left]. unfold addTerm. cbn [fst snd].
    rewrite Hget, Hdf.
    apply Rmult_lt_0_compat; [|apply recencyBoost_pos; lia].
    assert (Hidf : (0 < idf 3 2)%R) by (apply idf_pos; lia).
    simpl INR. lra.
Defined.

(** *** Code fences *)

Lemma fences_after_newline (s t : jsstring) :
  forall run, fences run (s ++ nl :: t) = (fences run s + fences O t)%nat.
Proof.
  induction s as [|c s IH]; intros run.
  - reflexivity.
  - cbn [app fences]. destruct (Ascii.eqb c backtick).
    + destruct run as [|[|run]]; rewrite IH; reflexivity.
    + apply IH.
Qed.

(** X21: after the closing step of [renderMarkdown] the number of code
    fences in the text is even, and a text that already has an even
    number is left as it is. *)
Theorem closeCodeFence_balances (processed : jsstring) :
  Nat.modulo (fences O (closeCodeFence processed)) 2 = O
  /\ (Nat.modulo (fences O processed) 2 = O ->
      closeCodeFence processed = processed).
Proof.
  unfold closeCodeFence.
  destruct (Nat.eqb (Nat.modulo (fences O processed) 2) 0) eqn:E.
  - apply Nat.eqb_eq in E. split; [exact E | reflexivity].
  - apply Nat.eqb_neq in E. split; [|intros H; contradiction].
    rewrite fences_after_newline.
    change (fences O [backtick; backtick; backtick]) with 1%nat.
    pose proof (Nat.mod_upper_bound (fences O processed) 2).
    rewrite Nat.Div0.add_mod by lia.
    destruct (fences O processed mod 2)%nat as [|[|n]] eqn:Em;
      [contradiction | reflexivity | lia].
Qed.

End ResultProperties.
